(** * canon-bluetooth-remote: the session protocol of [ble_app/python-test/main.py]

    A shallow embedding of the Python script that drives a Canon camera over
    BLE: the handshake, the three-phase shutter sequence, the indication
    channel, the session-per-shot workflow and the interactive loop.

    The BLE transport (bleak), the clock, standard input and the event loop are
    the environment.  Every call the script makes to them is recorded, in
    program order, in a trace; the environment decides from the trace so far
    whether a call raises. *)

From Stdlib Require Import ZArith NArith List String Ascii Bool Lia.
From Stdlib Require Import Strings.Byte DecimalString HexadecimalString.
From Stdlib Require HexadecimalN.
Import ListNotations.

Local Open Scope string_scope.
Local Open Scope list_scope.

(** ** Python values used by the script *)

(** A [bytearray] is a sequence of bytes; a [str] is a sequence of code points.
    Every code point the script builds comes from [chr] of a byte or from a
    literal, so [string] (code points below 256) holds them. *)
Definition bytearray := list byte.

Inductive exn : Type :=
| ValueError (msg : string)
| EOFError
| BleakError (msg : string)
| TimeoutError
| CancelledError.

(** [chr(b)] for an element of a bytearray: the character with that code
    point. *)
Definition chr (b : byte) : ascii := ascii_of_byte b.

(** [ord(c)]: the code point, a Python int. *)
Definition ord (c : ascii) : Z := Z.of_N (N_of_ascii c).

(** The string ["\n"]. *)
Definition newline : string := String (ascii_of_N 10) EmptyString.

(** ["".join(cs)] for an iterable of one-character strings. *)
Definition join (cs : list ascii) : string := string_of_list_ascii cs.

(** Truth value of a bytearray: false exactly when it is empty. *)
Definition truthy (data : bytearray) : bool :=
  match data with
  | [] => false
  | _ :: _ => true
  end.

(** One element of [bytearray(iterable_of_ints)]: an int outside
    [range(0, 256)] raises [ValueError]. *)
Definition byte_of_int (z : Z) : exn + byte :=
  if (z <? 0)%Z then inl (ValueError "byte must be in range(0, 256)")
  else match Byte.of_N (Z.to_N z) with
       | Some b => inr b
       | None => inl (ValueError "byte must be in range(0, 256)")
       end.

Fixpoint bytearray_of_ints (zs : list Z) : exn + bytearray :=
  match zs with
  | [] => inr []
  | z :: zs' =>
      match byte_of_int z with
      | inl e => inl e
      | inr b =>
          match bytearray_of_ints zs' with
          | inl e => inl e
          | inr bs => inr (b :: bs)
          end
      end
  end.

(** Lower-case hexadecimal digit of a value below 16. *)
Definition hex_digit (n : N) : ascii :=
  match n with
  | 0%N => "0" | 1%N => "1" | 2%N => "2" | 3%N => "3"
  | 4%N => "4" | 5%N => "5" | 6%N => "6" | 7%N => "7"
  | 8%N => "8" | 9%N => "9" | 10%N => "a" | 11%N => "b"
  | 12%N => "c" | 13%N => "d" | 14%N => "e" | _ => "f"
  end%char.

(** [data.hex()]: two lower-case hexadecimal digits per byte, high nibble
    first, in the order of the bytes. *)
Definition hex_of_byte (b : byte) : string :=
  let n := Byte.to_N b in
  String (hex_digit (n / 16)) (String (hex_digit (n mod 16)) EmptyString).

Fixpoint hex (data : bytearray) : string :=
  match data with
  | [] => EmptyString
  | b :: rest => hex_of_byte b ++ hex rest
  end.

(** [format(n, "x")] of a non-negative int: lower-case hexadecimal, no
    padding. *)
Definition format_x (n : N) : string :=
  HexadecimalString.NilZero.string_of_uint (N.to_hex_uint n).

(** Decimal formatting, as in ["%0wd" % n] for a non-negative [n]: at least
    [w] digits, padded on the left with zeros. *)
Definition digit (n : N) : ascii := ascii_of_N (48 + n mod 10).

Fixpoint digits (w : nat) (n : N) : string :=
  match w with
  | O => EmptyString
  | S w' => digits w' (n / 10) ++ String (digit n) EmptyString
  end.

Definition format_0d (w : nat) (n : N) : string :=
  if (n <? 10 ^ N.of_nat w)%N then digits w n
  else DecimalString.NilZero.string_of_uint (N.to_uint n).

(** ** datetime *)

Record datetime : Type := {
  year : N; month : N; day : N;
  hour : N; minute : N; second : N;
  microsecond : N
}.

(** The ranges the [datetime] type enforces on its fields. *)
Definition valid_datetime (dt : datetime) : bool :=
  ((1 <=? year dt) && (year dt <=? 9999) &&
   (1 <=? month dt) && (month dt <=? 12) &&
   (1 <=? day dt) && (day dt <=? 31) &&
   (hour dt <? 24) && (minute dt <? 60) && (second dt <? 60) &&
   (microsecond dt <? 1000000))%N.

(** [dt.isoformat(timespec="seconds")] of a naive datetime. *)
Definition isoformat_seconds (dt : datetime) : string :=
  format_0d 4 (year dt) ++ "-" ++ format_0d 2 (month dt) ++ "-" ++
  format_0d 2 (day dt) ++ "T" ++ format_0d 2 (hour dt) ++ ":" ++
  format_0d 2 (minute dt) ++ ":" ++ format_0d 2 (second dt).

(** [dt.isoformat(timespec="milliseconds")]: the microseconds are cut to
    whole milliseconds and printed on three digits. *)
Definition isoformat_milliseconds (dt : datetime) : string :=
  isoformat_seconds dt ++ "." ++ format_0d 3 (microsecond dt / 1000).

(** ** Module constants *)

Definition CAMERA_ADDR : string := "DC:FE:23:4A:E0:36".

Definition PAIRING_HANDLE : string := "00050002-0000-1000-0000-d8492fffa821".
Definition SHUTTER_HANDLE : string := "00050003-0000-1000-0000-d8492fffa821".
Definition STATUS_CHAR_HANDLE : string := "00050004-0000-1000-0000-d8492fffa821".

Definition MANUFACTURER_NAME : string := "00002a29-0000-1000-8000-00805f9b34fb".
Definition MODEL_NUMBER : string := "00002a24-0000-1000-8000-00805f9b34fb".
Definition SERIAL_NUMBER : string := "00002a26-0000-1000-8000-00805f9b34fb".
Definition SOFTWARE_REVISION : string := "00002a28-0000-1000-8000-00805f9b34fb".

Definition BUTTON_RELEASE : Z := 0x80.
Definition IMMEDIATE : Z := 0x0C.
Definition DEVICE_NAME : string := "LINUX".

(** ** Utilities *)

(** [bytes_to_str]: ["".join(map(chr, data)) if data else "N/A"]. *)
Definition bytes_to_str (data : bytearray) : string :=
  if truthy data then join (map chr data) else "N/A".

(** [str.isspace] on a single code point below 256. *)
Definition isspace (c : ascii) : bool :=
  let n := N_of_ascii c in
  (((9 <=? n) && (n <=? 13)) || ((28 <=? n) && (n <=? 32)) ||
   (n =? 133) || (n =? 160))%N.

Fixpoint lstrip (s : string) : string :=
  match s with
  | EmptyString => EmptyString
  | String c s' => if isspace c then lstrip s' else s
  end.

Fixpoint rstrip (s : string) : string :=
  match s with
  | EmptyString => EmptyString
  | String c s' =>
      match rstrip s' with
      | EmptyString => if isspace c then EmptyString else String c EmptyString
      | r => String c r
      end
  end.

(** [s.strip()]: white space removed at both ends. *)
Definition strip (s : string) : string := rstrip (lstrip s).

Definition lower_char (c : ascii) : ascii :=
  let n := N_of_ascii c in
  if (((65 <=? n) && (n <=? 90)) ||
      ((192 <=? n) && (n <=? 222) && negb (n =? 215)))%N
  then ascii_of_N (n + 32) else c.

(** [s.lower()] on code points below 256. *)
Fixpoint lower (s : string) : string :=
  match s with
  | EmptyString => EmptyString
  | String c s' => String (lower_char c) (lower s')
  end.

(** ** The environment: transport, clock, console *)

(** The handlers the script registers with [start_notify]. *)
Inductive Callback : Type :=
| status_handler_cb.

(** The calls the script makes to its environment.  [Connect] and
    [Disconnect] are what [async with BleakClient(addr)] does on entry
    ([__aenter__]) and on exit ([__aexit__]).  [Sleep] carries the delay in
    milliseconds: [asyncio.sleep(0.3)] is [Sleep 300]. *)
Inductive Call : Type :=
| Connect (address : string)
| Disconnect
| ReadGattChar (uuid : string)
| WriteGattChar (uuid : string) (data : bytearray) (response : bool)
| StartNotify (uuid : string) (callback : Callback)
| Sleep (ms : N)
| Print (line : string)
| Input (prompt : string).

(** A call together with its outcome: [None] when it completed, [Some e]
    when it raised [e]. *)
Record Event : Type := { call : Call; raised : option exn }.

Definition completed (c : Call) : Event := {| call := c; raised := None |}.
Definition failed (c : Call) (e : exn) : Event :=
  {| call := c; raised := Some e |}.

Definition Trace := list Event.

(** What the script cannot decide: whether an awaited call raises (a transport
    error, a timeout, a cancellation delivered at that suspension point), the
    value of [client.is_connected], the bytes a read returns and the time.
    Each may depend on everything that happened before. *)
Record Env : Type := {
  fault : Trace -> Call -> option exn;
  is_connected : Trace -> bool;
  read_value : Trace -> string -> bytearray;
  now : Trace -> datetime
}.

(** ** Coroutines: a trace-passing monad with exceptions *)

Inductive result (A : Type) : Type :=
| Return (a : A)
| Raise (e : exn).

Arguments Return {A} a.
Arguments Raise {A} e.

Definition Async (A : Type) : Type := Trace -> result A * Trace.

Definition ret {A : Type} (a : A) : Async A := fun t => (Return a, t).

Definition raise {A : Type} (e : exn) : Async A := fun t => (Raise e, t).

Definition bind {A B : Type} (m : Async A) (k : A -> Async B) : Async B :=
  fun t =>
    match m t with
    | (Return a, t') => k a t'
    | (Raise e, t') => (Raise e, t')
    end.

Declare Scope async_scope.
Delimit Scope async_scope with async.
Notation "x <- m ;; k" := (bind m (fun x => k))
  (at level 61, m at next level, right associativity) : async_scope.
Notation "m ;; k" := (bind m (fun _ => k))
  (at level 61, right associativity) : async_scope.
Local Open Scope async_scope.

(** Lift of a pure computation that may raise. *)
Definition lift {A : Type} (r : exn + A) : Async A :=
  match r with
  | inl e => raise e
  | inr a => ret a
  end.

(** A call that always completes. *)
Definition perform (c : Call) : Async unit :=
  fun t => (Return tt, t ++ [completed c]).

(** A call that raises [e]. *)
Definition perform_raising {A : Type} (c : Call) (e : exn) : Async A :=
  fun t => (Raise e, t ++ [failed c e]).

Section Program.

Variable env : Env.

(** [await c]: the call is made; the environment lets it complete or makes it
    raise. *)
Definition await (c : Call) : Async unit :=
  fun t =>
    match fault env t c with
    | None => perform c t
    | Some e => perform_raising c e t
    end.

Definition print (line : string) : Async unit := perform (Print line).

(** [BleakClient.__aexit__]: awaits [disconnect()].  When the disconnect
    completes, the outcome [r] of the block stands; when it raises, its
    exception replaces [r], whether the block returned or raised. *)
Definition aexit {A : Type} (r : result A) : Async A :=
  fun t =>
    match await Disconnect t with
    | (Return _, t') => (r, t')
    | (Raise e, t') => (Raise e, t')
    end.

(** [async with BleakClient(address) as client: body].  Entering connects;
    when that raises, the body does not run and nothing is released.  Once
    entered, leaving the block (by falling off its end, by [return] or by an
    exception) runs [__aexit__]. *)
Definition async_with_BleakClient {A : Type} (address : string)
    (body : Async A) : Async A :=
  fun t =>
    match await (Connect address) t with
    | (Raise e, t') => (Raise e, t')
    | (Return _, t') =>
        let (r, t'') := body t' in
        aexit r t''
    end.

(** [timestamp()]. *)
Definition timestamp : Async string :=
  fun t => (Return (isoformat_milliseconds (now env t)), t).

(** The handle of a characteristic, as bleak passes it to a handler. *)
Record BleakGATTCharacteristic : Type := { handle : N; uuid : string }.

(** ** Handlers *)

Definition status_handler (sender : BleakGATTCharacteristic)
    (data : bytearray) : Async unit :=
  ts <- timestamp ;;
  print (ts ++ "  [NOTIFY] sender=0x" ++ format_x (handle sender) ++
         "  payload=" ++ hex data).

(** ** BLE operations *)

Definition read_gatt_char (uuid : string) : Async bytearray :=
  fun t =>
    match await (ReadGattChar uuid) t with
    | (Return _, t') => (Return (read_value env t uuid), t')
    | (Raise e, t') => (Raise e, t')
    end.

Definition write_gatt_char (uuid : string) (data : bytearray)
    (response : bool) : Async unit :=
  await (WriteGattChar uuid data response).

Definition read_device_info : Async unit :=
  manufacturer <- read_gatt_char MANUFACTURER_NAME ;;
  model <- read_gatt_char MODEL_NUMBER ;;
  serial <- read_gatt_char SERIAL_NUMBER ;;
  software <- read_gatt_char SOFTWARE_REVISION ;;
  print (newline ++ "--- Device Info ---") ;;
  print ("Manufacturer: " ++ bytes_to_str manufacturer) ;;
  print ("Model:        " ++ bytes_to_str model) ;;
  print ("Serial:       " ++ bytes_to_str serial) ;;
  print ("Software:     " ++ bytes_to_str software) ;;
  print ("-------------------" ++ newline).

Definition handshake : Async unit :=
  version <- lift (bytearray_of_ints [0x03%Z]) ;;
  name <- lift (bytearray_of_ints (map ord (list_ascii_of_string DEVICE_NAME))) ;;
  let payload := version ++ name in
  write_gatt_char PAIRING_HANDLE payload true ;;
  ts <- timestamp ;;
  print (ts ++ " Handshake complete.").


Definition trigger_shutter : Async unit :=
  ts <- timestamp ;;
  print (ts ++ " --- Triggering Shutter Sequence ---") ;;
  half <- lift (bytearray_of_ints [IMMEDIATE]) ;;
  write_gatt_char SHUTTER_HANDLE half false ;;
  await (Sleep 300) ;;
  full <- lift (bytearray_of_ints [Z.lor BUTTON_RELEASE IMMEDIATE]) ;;
  write_gatt_char SHUTTER_HANDLE full false ;;
  idle <- lift (bytearray_of_ints [0x00%Z]) ;;
  write_gatt_char SHUTTER_HANDLE idle false ;;
  ts <- timestamp ;;
  print (ts ++ " Shutter sequence complete.").

(** ** Full session-per-shot workflow *)

Definition take_photo : Async unit :=
  async_with_BleakClient CAMERA_ADDR
    (fun t =>
       if negb (is_connected env t) then
         print "Failed to connect to camera." t
       else
         (ts <- timestamp ;;
          print (ts ++ " Connected to camera!") ;;
          handshake ;;
          trigger_shutter ;;
          ts <- timestamp ;;
          print (ts ++ " Disconnecting. Physical buttons unlocked.")) t).

(** ** Main interactive loop *)

(** [stdin] holds the lines still to be read; [input] raises [EOFError] when
    none is left.  The loop ends on ["q"], on an exception of [take_photo], or
    with the input. *)
Fixpoint main_loop (stdin : list string) : Async unit :=
  match stdin with
  | [] => perform_raising (Input ">> ") EOFError
  | line :: rest =>
      perform (Input ">> ") ;;
      let user_input := lower (strip line) in
      if String.eqb user_input "q" then ret tt
      else take_photo ;; main_loop rest
  end.

Definition main (stdin : list string) : Async unit :=
  print "Press ENTER to take a photo, or type 'q' to quit." ;;
  main_loop stdin.

End Program.

(** ** Observing traces *)

Definition is_print (c : Call) : bool :=
  match c with Print _ => true | _ => false end.

Definition is_connect (c : Call) : bool :=
  match c with Connect _ => true | _ => false end.

Definition is_disconnect (c : Call) : bool :=
  match c with Disconnect => true | _ => false end.

Definition is_read (c : Call) : bool :=
  match c with ReadGattChar _ => true | _ => false end.

Definition is_write (c : Call) : bool :=
  match c with WriteGattChar _ _ _ => true | _ => false end.

Definition is_write_to (h : string) (c : Call) : bool :=
  match c with WriteGattChar u _ _ => String.eqb u h | _ => false end.

(** The events of a trace whose call satisfies [p], in order. *)
Definition select (p : Call -> bool) (es : Trace) : Trace :=
  filter (fun ev => p (call ev)) es.

(** What the script does to the transport and the event loop: the trace
    without its console output. *)
Definition transport (es : Trace) : Trace :=
  select (fun c => negb (is_print c)) es.

Definition count (p : Call -> bool) (es : Trace) : nat :=
  List.length (select p es).

Definition is_completed (ev : Event) : bool :=
  match raised ev with None => true | Some _ => false end.

(** A sequence of calls run until the first one that raises: either every
    step completed and the outcome is a normal return, or the steps before
    some step [k] completed, step [k] raised [e], nothing after it was
    attempted and the outcome is [e]. *)
Definition stops_at_first_failure {A : Type} (steps : list Call) (es : Trace)
    (r : result A) : Prop :=
  (es = map completed steps /\ exists a, r = Return a) \/
  (exists k c e,
      nth_error steps k = Some c /\
      es = map completed (firstn k steps) ++ [failed c e] /\
      r = Raise e).

(** Sessions do not overlap: scanning a trace, no connection is attempted
    while one is open.  [active] tells whether a connection is open before
    the first event.  A connect that completes opens one, a disconnect that
    completes closes it, and a disconnect that raises leaves it as it was. *)
Fixpoint sequential (active : bool) (es : Trace) : bool :=
  match es with
  | [] => true
  | ev :: rest =>
      match call ev with
      | Connect _ =>
          if active then false else sequential (is_completed ev) rest
      | Disconnect => sequential (active && negb (is_completed ev)) rest
      | _ => sequential active rest
      end
  end.

(** Whether a connection is open after the events of [es]. *)
Fixpoint active_after (active : bool) (es : Trace) : bool :=
  match es with
  | [] => active
  | ev :: rest =>
      match call ev with
      | Connect _ => active_after (is_completed ev) rest
      | Disconnect => active_after (active && negb (is_completed ev)) rest
      | _ => active_after active rest
      end
  end.

(** Scanning a trace, every write to [SHUTTER_HANDLE] comes after a completed
    write [hw].  [unlocked] tells whether [hw] completed before the first
    event. *)
Fixpoint guarded_by (hw : Call -> bool) (unlocked : bool) (es : Trace) : bool :=
  match es with
  | [] => true
  | ev :: rest =>
      if is_write_to SHUTTER_HANDLE (call ev) then
        unlocked && guarded_by hw unlocked rest
      else
        guarded_by hw (unlocked || (hw (call ev) && is_completed ev)) rest
  end.

(** [bytes.fromhex]: the inverse of [hex], used to read a logged payload
    back. *)
Definition unhex_digit (c : ascii) : option N :=
  let n := N_of_ascii c in
  if ((48 <=? n) && (n <=? 57))%N then Some (n - 48)%N
  else if ((97 <=? n) && (n <=? 102))%N then Some (n - 87)%N
  else None.

Fixpoint fromhex (s : string) : option bytearray :=
  match s with
  | EmptyString => Some []
  | String hi (String lo rest) =>
      match unhex_digit hi, unhex_digit lo, fromhex rest with
      | Some h, Some l, Some bs =>
          match Byte.of_N (16 * h + l) with
          | Some b => Some (b :: bs)
          | None => None
          end
      | _, _, _ => None
      end
  | String _ EmptyString => None
  end.

(** ** Wire constants, as the script computes them *)

Definition HANDSHAKE_PAYLOAD : bytearray := [x03; x4c; x49; x4e; x55; x58].

Definition HANDSHAKE_WRITE : Call :=
  WriteGattChar PAIRING_HANDLE HANDSHAKE_PAYLOAD true.

Definition FOCUS_WRITE : Call := WriteGattChar SHUTTER_HANDLE [x0c] false.
Definition SHUTTER_AND_FOCUS_WRITE : Call :=
  WriteGattChar SHUTTER_HANDLE [x8c] false.
Definition RELEASE_WRITE : Call := WriteGattChar SHUTTER_HANDLE [x00] false.


(** The steps of the shutter sequence and of the indication setup, in
    program order. *)
Definition SHUTTER_STEPS : list Call :=
  [FOCUS_WRITE; Sleep 300; SHUTTER_AND_FOCUS_WRITE; RELEASE_WRITE].


Definition is_handshake_write (c : Call) : bool :=
  match c with
  | WriteGattChar u d r =>
      String.eqb u PAIRING_HANDLE && String.eqb (hex d) (hex HANDSHAKE_PAYLOAD) && r
  | _ => false
  end.

(** ** Some environments *)

Definition noon : datetime :=
  {| year := 2024; month := 3; day := 9;
     hour := 12; minute := 0; second := 7; microsecond := 45678 |}.

(** Nothing raises and the client reports that it is connected. *)
Definition ideal : Env :=
  {| fault := fun _ _ => None;
     is_connected := fun _ => true;
     read_value := fun _ _ => [];
     now := fun _ => noon |}.

(** The transport raises [e] on the calls that satisfy [p]. *)
Definition failing (p : Call -> bool) (e : exn) : Env :=
  {| fault := fun _ c => if p c then Some e else None;
     is_connected := fun _ => true;
     read_value := fun _ _ => [];
     now := fun _ => noon |}.

(** The connection is made but the client reports that it is not connected. *)
Definition not_connected : Env :=
  {| fault := fun _ _ => None;
     is_connected := fun _ => false;
     read_value := fun _ _ => [];
     now := fun _ => noon |}.

Definition write_failed : exn := BleakError "write failed".

(** The transport raises on the calls for which [f] names an exception. *)
Definition raising (f : Call -> option exn) (connected : bool) : Env :=
  {| fault := fun _ c => f c;
     is_connected := fun _ => connected;
     read_value := fun _ _ => [];
     now := fun _ => noon |}.

(** The handshake write fails and then the disconnect times out. *)
Definition handshake_and_disconnect_fail : Env :=
  raising (fun c =>
             match c with
             | WriteGattChar u _ _ =>
                 if String.eqb u PAIRING_HANDLE then Some write_failed else None
             | Disconnect => Some TimeoutError
             | _ => None
             end) true.

(** The client reports that it is not connected and then the disconnect
    times out. *)
Definition not_connected_disconnect_fails : Env :=
  raising (fun c =>
             match c with
             | Disconnect => Some TimeoutError
             | _ => None
             end) false.

(** [int(s, 16)] for the digits that [format(n, "x")] writes. *)
Definition int_of_hex (s : string) : option N :=
  option_map N.of_hex_uint (HexadecimalString.NilZero.uint_of_string s).

(** [int(s)] for a string of decimal digits, most significant first;
    [acc] is the value of the digits read so far. *)
Fixpoint dec_value_from (acc : N) (s : string) : N :=
  match s with
  | EmptyString => acc
  | String c s' => dec_value_from (10 * acc + (N_of_ascii c - 48)) s'
  end.

Definition dec_value (s : string) : N := dec_value_from 0 s.

(** A lower-case hexadecimal digit. *)
Definition is_lower_hex (c : ascii) : bool :=
  let n := N_of_ascii c in
  (((48 <=? n) && (n <=? 57)) || ((97 <=? n) && (n <=? 102)))%N.

Fixpoint all_lower_hex (s : string) : bool :=
  match s with
  | EmptyString => true
  | String c s' => is_lower_hex c && all_lower_hex s'
  end.

Definition is_focus_write (c : Call) : bool :=
  match c with
  | WriteGattChar u d _ => String.eqb u SHUTTER_HANDLE && String.eqb (hex d) "0c"
  | _ => false
  end.

Definition is_shutter_and_focus_write (c : Call) : bool :=
  match c with
  | WriteGattChar u d _ => String.eqb u SHUTTER_HANDLE && String.eqb (hex d) "8c"
  | _ => false
  end.

(** ** Further observers *)

Definition is_notify (c : Call) : bool :=
  match c with StartNotify _ _ => true | _ => false end.

Definition is_input (c : Call) : bool :=
  match c with Input _ => true | _ => false end.

Definition is_sleep (c : Call) : bool :=
  match c with Sleep _ => true | _ => false end.

(** The four reads of [read_device_info], in program order. *)
Definition DEVICE_INFO_READS : list Call :=
  [ReadGattChar MANUFACTURER_NAME; ReadGattChar MODEL_NUMBER;
   ReadGattChar SERIAL_NUMBER; ReadGattChar SOFTWARE_REVISION].

(** The transport calls of a complete session, in program order. *)
Definition SESSION_STEPS : list Call :=
  Connect CAMERA_ADDR :: HANDSHAKE_WRITE :: SHUTTER_STEPS ++ [Disconnect].

(** The button state the camera was last told: the data of the last
    completed write to [SHUTTER_HANDLE], starting from [s]. *)
Fixpoint button_state (s : option bytearray) (es : Trace) : option bytearray :=
  match es with
  | [] => s
  | ev :: rest =>
      match call ev with
      | WriteGattChar u d _ =>
          if String.eqb u SHUTTER_HANDLE && is_completed ev
          then button_state (Some d) rest
          else button_state s rest
      | _ => button_state s rest
      end
  end.

(** The test of the interactive loop: [input(...).strip().lower() == "q"]. *)
Definition quits (line : string) : bool :=
  String.eqb (lower (strip line)) "q".

(** A string made of white space only. *)
Fixpoint all_space (s : string) : bool :=
  match s with
  | EmptyString => true
  | String c s' => isspace c && all_space s'
  end.

(** A camera that answers the device-information reads; it has no serial
    number to report. *)
Definition camera_info : Env :=
  {| fault := fun _ _ => None;
     is_connected := fun _ => true;
     read_value := fun _ u =>
       if String.eqb u MANUFACTURER_NAME then [x43; x61; x6e; x6f; x6e]
       else if String.eqb u MODEL_NUMBER then [x52; x35]
       else if String.eqb u SERIAL_NUMBER then []
       else [x31; x2e; x30];
     now := fun _ => noon |}.

Definition is_serial_read (c : Call) : bool :=
  match c with ReadGattChar u => String.eqb u SERIAL_NUMBER | _ => false end.

Definition is_release_write (c : Call) : bool :=
  match c with
  | WriteGattChar u d _ => String.eqb u SHUTTER_HANDLE && String.eqb (hex d) "00"
  | _ => false
  end.

(** The bytes whose values are the code points of [s]: what
    [bytes(map(ord, s))] gives, and the way back from [bytes_to_str]. *)
Definition str_to_bytes (s : string) : bytearray :=
  map byte_of_ascii (list_ascii_of_string s).

(** * Properties *)

(** ** Strings and bytes *)

Lemma length_app_string (s1 s2 : string) :
  String.length (s1 ++ s2) = String.length s1 + String.length s2.
Proof.
  induction s1 as [|c s1 IH]; simpl; [reflexivity | now rewrite IH].
Qed.

Lemma app_string_assoc (s1 s2 s3 : string) :
  ((s1 ++ s2) ++ s3 = s1 ++ (s2 ++ s3))%string.
Proof.
  induction s1 as [|c s1 IH]; cbn [String.append]; [reflexivity | now rewrite IH].
Qed.

Lemma length_join (cs : list ascii) :
  String.length (join cs) = List.length cs.
Proof.
  induction cs as [|c cs IH]; simpl; [reflexivity | now rewrite IH].
Qed.

Lemma get_join (cs : list ascii) (i : nat) :
  String.get i (join cs) = nth_error cs i.
Proof.
  revert i; induction cs as [|c cs IH]; intros [|i]; simpl; auto.
Qed.

Lemma length_hex (data : bytearray) :
  String.length (hex data) = 2 * List.length data.
Proof.
  induction data as [|b data IH]; simpl; [reflexivity | rewrite IH; lia].
Qed.

Lemma fromhex_hex_of_byte (b : byte) (s : string) (bs : bytearray) :
  fromhex s = Some bs -> fromhex (hex_of_byte b ++ s) = Some (b :: bs).
Proof.
  intros Hs. destruct b; simpl; rewrite Hs; reflexivity.
Qed.

Lemma fromhex_hex (data : bytearray) : fromhex (hex data) = Some data.
Proof.
  induction data as [|b data IH]; [reflexivity |].
  change (hex (b :: data)) with (hex_of_byte b ++ hex data)%string.
  now apply fromhex_hex_of_byte.
Qed.

Lemma length_digits (w : nat) (n : N) : String.length (digits w n) = w.
Proof.
  revert n; induction w as [|w IH]; intros n; simpl; [reflexivity |].
  rewrite length_app_string, IH; simpl; lia.
Qed.

Lemma length_format_0d (w : nat) (n : N) :
  (n < 10 ^ N.of_nat w)%N -> String.length (format_0d w n) = w.
Proof.
  intros Hn. unfold format_0d.
  apply N.ltb_lt in Hn. rewrite Hn. apply length_digits.
Qed.

Lemma length_isoformat_milliseconds (dt : datetime) :
  valid_datetime dt = true ->
  String.length (isoformat_milliseconds dt) = 23.
Proof.
  unfold valid_datetime. rewrite !andb_true_iff.
  rewrite !N.leb_le, !N.ltb_lt.
  intros [[[[[[[[[Hy1 Hy2] Hm1] Hm2] Hd1] Hd2] Hh] Hmi] Hs] Hus].
  unfold isoformat_milliseconds, isoformat_seconds.
  rewrite !length_app_string.
  rewrite (length_format_0d 4), !(length_format_0d 2), (length_format_0d 3).
  - reflexivity.
  - change (10 ^ N.of_nat 3)%N with 1000%N.
    apply N.Div0.div_lt_upper_bound. lia.
  - change (10 ^ N.of_nat 2)%N with 100%N. lia.
  - change (10 ^ N.of_nat 2)%N with 100%N. lia.
  - change (10 ^ N.of_nat 2)%N with 100%N. lia.
  - change (10 ^ N.of_nat 2)%N with 100%N. lia.
  - change (10 ^ N.of_nat 2)%N with 100%N. lia.
  - change (10 ^ N.of_nat 4)%N with 10000%N. lia.
Qed.

(** C9.  [bytes_to_str] gives ["N/A"] for the empty byte sequence; for a
    non-empty one it gives the string whose characters are the code points of
    the bytes, in order: as many characters as bytes, the [i]-th one being
    [chr] of the [i]-th byte.  Two bytes that would be one character under
    UTF-8 stay two characters. *)
Theorem bytes_to_str_spec :
  bytes_to_str [] = "N/A" /\
  (forall (b : byte) (rest : bytearray),
      let data := b :: rest in
      bytes_to_str data = string_of_list_ascii (map ascii_of_byte data) /\
      String.length (bytes_to_str data) = List.length data /\
      (forall i : nat,
          String.get i (bytes_to_str data) =
          option_map ascii_of_byte (nth_error data i))) /\
  String.length (bytes_to_str [xc3; xa9]) = 2.
Proof.
  split; [reflexivity | split; [| reflexivity]].
  intros b rest data. unfold bytes_to_str, data. cbn [truthy].
  split; [reflexivity | split].
  - now rewrite length_join, length_map.
  - intros i. rewrite get_join. apply nth_error_map.
Qed.

(** Reading numbers back from their text. *)

Lemma all_lower_hex_digits (d : Hexadecimal.uint) :
  all_lower_hex (HexadecimalString.NilEmpty.string_of_uint d) = true.
Proof.
  induction d; cbn [HexadecimalString.NilEmpty.string_of_uint all_lower_hex];
    rewrite ?IHd; reflexivity.
Qed.

Lemma all_lower_hex_format_x (n : N) : all_lower_hex (format_x n) = true.
Proof.
  unfold format_x, HexadecimalString.NilZero.string_of_uint.
  destruct (N.to_hex_uint n) eqn:Hd; try reflexivity;
    rewrite <- Hd; apply all_lower_hex_digits.
Qed.

Lemma int_of_hex_format_x (n : N) : int_of_hex (format_x n) = Some n.
Proof.
  unfold int_of_hex, format_x.
  destruct (HexadecimalString.NilZero.usu_gen (N.to_hex_uint n)) as [H | H];
    rewrite H; cbn [option_map].
  - now rewrite HexadecimalN.Unsigned.of_to.
  - apply HexadecimalString.NilZero.sus in H.
    assert (Hn : format_x n = "0") by (symmetry; exact H).
    destruct n as [|p]; [reflexivity |].
    exfalso. unfold format_x, HexadecimalString.NilZero.string_of_uint in Hn.
    destruct (N.to_hex_uint (N.pos p)) eqn:Hd.
    + apply (f_equal N.of_hex_uint) in Hd.
      rewrite HexadecimalN.Unsigned.of_to in Hd. discriminate Hd.
    + pose proof (HexadecimalN.Unsigned.of_to (N.pos p)) as Hof.
      rewrite Hd in Hof.
      cbn [HexadecimalString.NilEmpty.string_of_uint] in Hn.
      injection Hn as Hn.
      destruct u; cbn [HexadecimalString.NilEmpty.string_of_uint] in Hn;
        try discriminate Hn.
      discriminate Hof.
    + cbn in Hn; discriminate Hn.
    + cbn in Hn; discriminate Hn.
    + cbn in Hn; discriminate Hn.
    + cbn in Hn; discriminate Hn.
    + cbn in Hn; discriminate Hn.
    + cbn in Hn; discriminate Hn.
    + cbn in Hn; discriminate Hn.
    + cbn in Hn; discriminate Hn.
    + cbn in Hn; discriminate Hn.
    + cbn in Hn; discriminate Hn.
    + cbn in Hn; discriminate Hn.
    + cbn in Hn; discriminate Hn.
    + cbn in Hn; discriminate Hn.
    + cbn in Hn; discriminate Hn.
    + cbn in Hn; discriminate Hn.
Qed.

Lemma dec_value_from_app (s : string) (c : ascii) :
  forall acc : N,
    dec_value_from acc (s ++ String c EmptyString) =
    (10 * dec_value_from acc s + (N_of_ascii c - 48))%N.
Proof.
  induction s as [|a s IH]; intros acc; cbn [String.append dec_value_from];
    [reflexivity | apply IH].
Qed.

Lemma dec_value_from_digits (w : nat) :
  forall acc n : N,
    dec_value_from acc (digits w n) =
    (acc * 10 ^ N.of_nat w + n mod 10 ^ N.of_nat w)%N.
Proof.
  induction w as [|w IH]; intros acc n.
  - cbn [digits dec_value_from]. change (10 ^ N.of_nat 0)%N with 1%N.
    rewrite N.mod_1_r. lia.
  - cbn [digits]. rewrite dec_value_from_app, IH.
    unfold digit. rewrite N_ascii_embedding.
    2:{ pose proof (N.mod_upper_bound n 10). lia. }
    rewrite Nat2N.inj_succ, N.pow_succ_r'.
    rewrite (N.Div0.mod_mul_r n 10 (10 ^ N.of_nat w)).
    rewrite (N.add_comm 48 (n mod 10)), N.add_sub. ring.
Qed.

Lemma dec_value_format_0d (w : nat) (n : N) :
  (n < 10 ^ N.of_nat w)%N -> dec_value (format_0d w n) = n.
Proof.
  intros Hn. unfold format_0d, dec_value.
  pose proof Hn as Hb. apply N.ltb_lt in Hb. rewrite Hb.
  rewrite dec_value_from_digits, N.mod_small by exact Hn. lia.
Qed.

(** C8.  For an event delivered to [status_handler], the line printed is the
    timestamp, the sender's handle in hexadecimal and the payload in
    hexadecimal.  The payload is written with two digits per byte, from
    which [fromhex] reads the very bytes of the payload back.  The handle is
    written in lower-case hexadecimal digits from which its number is read
    back.  The timestamp is the date and the time of the clock, field by
    field on fixed widths and each read back from its digits, the last
    field being the milliseconds on three digits: 23 characters in all. *)
Theorem status_handler_output (env : Env) (t : Trace)
    (sender : BleakGATTCharacteristic) (data : bytearray) :
  valid_datetime (now env t) = true ->
  let ts := isoformat_milliseconds (now env t) in
  status_handler env sender data t =
    (Return tt,
     t ++ [completed (Print (ts ++ "  [NOTIFY] sender=0x" ++
                             format_x (handle sender) ++
                             "  payload=" ++ hex data))]) /\
  String.length (hex data) = 2 * List.length data /\
  fromhex (hex data) = Some data /\
  ts = (isoformat_seconds (now env t) ++ "." ++
        format_0d 3 (microsecond (now env t) / 1000))%string /\
  String.length (format_0d 3 (microsecond (now env t) / 1000)) = 3 /\
  String.length ts = 23 /\
  int_of_hex (format_x (handle sender)) = Some (handle sender) /\
  all_lower_hex (format_x (handle sender)) = true /\
  (let dt := now env t in
   ts = (format_0d 4 (year dt) ++ "-" ++ format_0d 2 (month dt) ++ "-" ++
         format_0d 2 (day dt) ++ "T" ++ format_0d 2 (hour dt) ++ ":" ++
         format_0d 2 (minute dt) ++ ":" ++ format_0d 2 (second dt) ++ "." ++
         format_0d 3 (microsecond dt / 1000))%string /\
   map dec_value
     [format_0d 4 (year dt); format_0d 2 (month dt); format_0d 2 (day dt);
      format_0d 2 (hour dt); format_0d 2 (minute dt); format_0d 2 (second dt);
      format_0d 3 (microsecond dt / 1000)] =
   [year dt; month dt; day dt; hour dt; minute dt; second dt;
    (microsecond dt / 1000)%N]).
Proof.
  intros Hv ts.
  assert (Hms : (microsecond (now env t) / 1000 < 10 ^ N.of_nat 3)%N).
  { unfold valid_datetime in Hv. rewrite !andb_true_iff in Hv.
    destruct Hv as [_ Hus]. apply N.ltb_lt in Hus.
    change (10 ^ N.of_nat 3)%N with 1000%N.
    apply N.Div0.div_lt_upper_bound. lia. }
  split; [reflexivity |].
  split; [apply length_hex |].
  split; [apply fromhex_hex |].
  split; [reflexivity |].
  split; [now apply length_format_0d |].
  split; [now apply length_isoformat_milliseconds |].
  split; [apply int_of_hex_format_x |].
  split; [apply all_lower_hex_format_x |].
  cbv zeta. split.
  - subst ts. unfold isoformat_milliseconds, isoformat_seconds.
    rewrite !app_string_assoc. reflexivity.
  - unfold valid_datetime in Hv. rewrite !andb_true_iff in Hv.
    rewrite !N.leb_le, !N.ltb_lt in Hv.
    destruct Hv as [[[[[[[[[Hy1 Hy2] Hm1] Hm2] Hd1] Hd2] Hh] Hmi] Hs] Hus].
    cbn [map].
    rewrite (dec_value_format_0d 4), !(dec_value_format_0d 2),
      (dec_value_format_0d 3); try exact Hms; try reflexivity;
      try (change (10 ^ N.of_nat 2)%N with 100%N; lia);
      change (10 ^ N.of_nat 4)%N with 10000%N; lia.
Qed.

Lemma status_handler_output_witness :
  status_handler ideal {| handle := 27; uuid := STATUS_CHAR_HANDLE |}
    [xaa; xbb] [] =
    (Return tt,
     [completed
        (Print "2024-03-09T12:00:07.045  [NOTIFY] sender=0x1b  payload=aabb")]).
Proof.
  exact (proj1 (status_handler_output ideal []
                  {| handle := 27; uuid := STATUS_CHAR_HANDLE |} [xaa; xbb]
                  eq_refl)).
Defined.

(** ** The operations, path by path *)

(** The byte arrays the script builds are constants. *)
Lemma bytearray_version : bytearray_of_ints [0x03%Z] = inr [x03].
Proof. reflexivity. Qed.

Lemma bytearray_device_name :
  bytearray_of_ints (map ord (list_ascii_of_string DEVICE_NAME)) =
  inr [x4c; x49; x4e; x55; x58].
Proof. reflexivity. Qed.

Lemma bytearray_cccd : bytearray_of_ints [0x02%Z; 0x00%Z] = inr [x02; x00].
Proof. reflexivity. Qed.

Lemma bytearray_half : bytearray_of_ints [IMMEDIATE] = inr [x0c].
Proof. reflexivity. Qed.

Lemma bytearray_full :
  bytearray_of_ints [Z.lor BUTTON_RELEASE IMMEDIATE] = inr [x8c].
Proof. reflexivity. Qed.

Lemma bytearray_idle : bytearray_of_ints [0x00%Z] = inr [x00].
Proof. reflexivity. Qed.

(** Unfolds the monad and the constant byte arrays of an operation. *)
Ltac unfold_async :=
  rewrite ?bytearray_version, ?bytearray_device_name, ?bytearray_cccd,
    ?bytearray_half, ?bytearray_full, ?bytearray_idle;
  unfold lift, timestamp, print, write_gatt_char, await, perform,
    perform_raising, bind, ret, raise;
  cbv beta iota.

Ltac flatten_trace := repeat rewrite <- app_assoc; cbn [app].

Lemma handshake_eq (env : Env) (t : Trace) :
  handshake env t =
  match fault env t HANDSHAKE_WRITE with
  | Some e => (Raise e, t ++ [failed HANDSHAKE_WRITE e])
  | None =>
      (Return tt,
       t ++ [completed HANDSHAKE_WRITE;
             completed
               (Print (isoformat_milliseconds
                         (now env (t ++ [completed HANDSHAKE_WRITE])) ++
                       " Handshake complete."))])
  end.
Proof.
  unfold handshake. unfold_async. cbn [app].
  fold HANDSHAKE_PAYLOAD. fold HANDSHAKE_WRITE.
  destruct (fault env t HANDSHAKE_WRITE) as [e|]; [reflexivity |].
  flatten_trace. reflexivity.
Qed.

Lemma trigger_shutter_eq (env : Env) (t : Trace) :
  let t1 :=
    t ++ [completed (Print (isoformat_milliseconds (now env t) ++
                            " --- Triggering Shutter Sequence ---"))] in
  let t2 := t1 ++ [completed FOCUS_WRITE] in
  let t3 := t2 ++ [completed (Sleep 300)] in
  let t4 := t3 ++ [completed SHUTTER_AND_FOCUS_WRITE] in
  let t5 := t4 ++ [completed RELEASE_WRITE] in
  trigger_shutter env t =
  match fault env t1 FOCUS_WRITE with
  | Some e => (Raise e, t1 ++ [failed FOCUS_WRITE e])
  | None =>
  match fault env t2 (Sleep 300) with
  | Some e => (Raise e, t2 ++ [failed (Sleep 300) e])
  | None =>
  match fault env t3 SHUTTER_AND_FOCUS_WRITE with
  | Some e => (Raise e, t3 ++ [failed SHUTTER_AND_FOCUS_WRITE e])
  | None =>
  match fault env t4 RELEASE_WRITE with
  | Some e => (Raise e, t4 ++ [failed RELEASE_WRITE e])
  | None =>
      (Return tt,
       t5 ++ [completed (Print (isoformat_milliseconds (now env t5) ++
                                " Shutter sequence complete."))])
  end end end end.
Proof.
  intros t1 t2 t3 t4 t5. unfold trigger_shutter. unfold_async.
  fold FOCUS_WRITE SHUTTER_AND_FOCUS_WRITE RELEASE_WRITE. fold t1.
  destruct (fault env t1 FOCUS_WRITE) as [e|]; [reflexivity |].
  fold t2.
  destruct (fault env t2 (Sleep 300)) as [e|]; [reflexivity |].
  fold t3.
  destruct (fault env t3 SHUTTER_AND_FOCUS_WRITE) as [e|]; [reflexivity |].
  fold t4.
  destruct (fault env t4 RELEASE_WRITE) as [e|]; [reflexivity |].
  reflexivity.
Qed.

(** ** Handshake *)

(** C4.  [handshake] makes exactly one transport call: a write with
    response (acknowledged) to [PAIRING_HANDLE] of the six bytes [0x03]
    followed by the ASCII codes of ["LINUX"].  Nothing is read back; the
    handshake succeeds exactly when that write completes, and raises what the
    write raises otherwise. *)
Theorem handshake_spec (env : Env) (t : Trace) :
  HANDSHAKE_PAYLOAD = x03 :: map byte_of_ascii (list_ascii_of_string "LINUX") /\
  List.length HANDSHAKE_PAYLOAD = 6 /\
  exists es : Trace,
    snd (handshake env t) = t ++ es /\
    transport es =
      [{| call := WriteGattChar PAIRING_HANDLE HANDSHAKE_PAYLOAD true;
          raised := fault env t HANDSHAKE_WRITE |}] /\
    count is_read es = 0 /\
    (fst (handshake env t) = Return tt <->
     fault env t HANDSHAKE_WRITE = None) /\
    (forall e : exn,
        fst (handshake env t) = Raise e <->
        fault env t HANDSHAKE_WRITE = Some e).
Proof.
  split; [reflexivity | split; [reflexivity |]].
  rewrite handshake_eq.
  destruct (fault env t HANDSHAKE_WRITE) as [e|]; eexists;
    (split; [reflexivity |]); cbn [fst].
  - repeat split; try discriminate; congruence.
  - repeat split; try discriminate; congruence.
Qed.

Lemma handshake_spec_witness :
  fst (handshake (failing is_handshake_write write_failed) []) =
    Raise write_failed /\
  fst (handshake ideal []) = Return tt.
Proof.
  split.
  - destruct (handshake_spec (failing is_handshake_write write_failed) [])
      as (_ & _ & es & _ & _ & _ & _ & Hraise).
    apply Hraise. reflexivity.
  - destruct (handshake_spec ideal []) as (_ & _ & es & _ & _ & _ & Hok & _).
    apply Hok. reflexivity.
Defined.

(** ** Shutter sequence *)

(** C3.  A run of [trigger_shutter] that returns normally has made, in this
    order and between its two log lines: the write without response of
    [0x0C] to [SHUTTER_HANDLE], a sleep of 300 ms, the write without response
    of [0x8C], which is [BUTTON_RELEASE | IMMEDIATE], and right after it the
    write without response of [0x00].  These are its only writes to
    [SHUTTER_HANDLE]. *)
Theorem trigger_shutter_success (env : Env) (t t' : Trace) :
  trigger_shutter env t = (Return tt, t') ->
  (exists ts0 ts1 : string,
      t' = t ++ [completed (Print (ts0 ++ " --- Triggering Shutter Sequence ---"));
                 completed (WriteGattChar SHUTTER_HANDLE [x0c] false);
                 completed (Sleep 300);
                 completed (WriteGattChar SHUTTER_HANDLE [x8c] false);
                 completed (WriteGattChar SHUTTER_HANDLE [x00] false);
                 completed (Print (ts1 ++ " Shutter sequence complete."))]) /\
  (exists es : Trace,
      t' = t ++ es /\
      select (is_write_to SHUTTER_HANDLE) es =
        map completed [FOCUS_WRITE; SHUTTER_AND_FOCUS_WRITE; RELEASE_WRITE] /\
      select is_write es =
        map completed [FOCUS_WRITE; SHUTTER_AND_FOCUS_WRITE; RELEASE_WRITE]) /\
  Z.lor BUTTON_RELEASE IMMEDIATE = 0x8C%Z /\
  bytearray_of_ints [Z.lor 0x80 0x0C] = inr [x8c].
Proof.
  pose proof (trigger_shutter_eq env t) as Heq. cbv zeta in Heq.
  rewrite Heq. clear Heq.
  repeat match goal with
         | |- context [fault env ?u ?c] =>
             destruct (fault env u c); [discriminate |]
         end.
  intros H. injection H as <-.
  split; [| split; [| split; reflexivity]].
  - do 2 eexists. flatten_trace. reflexivity.
  - eexists. split; [flatten_trace; reflexivity |].
    split; reflexivity.
Qed.

Lemma trigger_shutter_success_witness :
  exists ts0 ts1 : string,
    snd (trigger_shutter ideal []) =
      [completed (Print (ts0 ++ " --- Triggering Shutter Sequence ---"));
       completed (WriteGattChar SHUTTER_HANDLE [x0c] false);
       completed (Sleep 300);
       completed (WriteGattChar SHUTTER_HANDLE [x8c] false);
       completed (WriteGattChar SHUTTER_HANDLE [x00] false);
       completed (Print (ts1 ++ " Shutter sequence complete."))].
Proof.
  exact (proj1 (trigger_shutter_success ideal []
                  (snd (trigger_shutter ideal [])) eq_refl)).
Defined.

(** C1, as the code has it.  The claim that the release write is attempted
    whatever happens before fails: when the focus write raises, or the
    write of [0x8C] raises, [trigger_shutter] raises at once and never
    writes [0x00]. *)
Lemma release_skipped_after_failure :
  trigger_shutter (failing is_focus_write write_failed) [] =
    (Raise write_failed,
     [completed
        (Print "2024-03-09T12:00:07.045 --- Triggering Shutter Sequence ---");
      failed FOCUS_WRITE write_failed]) /\
  ~ In RELEASE_WRITE
      (map call (snd (trigger_shutter (failing is_focus_write write_failed) []))) /\
  trigger_shutter (failing is_shutter_and_focus_write write_failed) [] =
    (Raise write_failed,
     [completed
        (Print "2024-03-09T12:00:07.045 --- Triggering Shutter Sequence ---");
      completed FOCUS_WRITE;
      completed (Sleep 300);
      failed SHUTTER_AND_FOCUS_WRITE write_failed]) /\
  ~ In RELEASE_WRITE
      (map call
         (snd (trigger_shutter
                 (failing is_shutter_and_focus_write write_failed) []))).
Proof.
  split; [vm_compute; reflexivity |].
  split; [vm_compute; intuition discriminate |].
  split; [vm_compute; reflexivity |].
  vm_compute; intuition discriminate.
Qed.

(** C1, amended.  [trigger_shutter] runs its four steps (focus write, sleep,
    shutter-and-focus write, release write) in this order and stops at the
    first one that raises, whose exception it raises.  So the release write
    is attempted exactly when the focus write, the sleep and the
    shutter-and-focus write have all completed. *)
Theorem trigger_shutter_stops_at_first_failure (env : Env) (t : Trace) :
  exists es : Trace,
    snd (trigger_shutter env t) = t ++ es /\
    stops_at_first_failure SHUTTER_STEPS (transport es)
      (fst (trigger_shutter env t)) /\
    (In RELEASE_WRITE (map call es) <->
     In (completed FOCUS_WRITE) es /\
     In (completed (Sleep 300)) es /\
     In (completed SHUTTER_AND_FOCUS_WRITE) es).
Proof.
  pose proof (trigger_shutter_eq env t) as Heq. cbv zeta in Heq.
  rewrite Heq. clear Heq.
  repeat match goal with
         | |- context [fault env ?u ?c] => destruct (fault env u c) as [e|]
         end;
    eexists; (split; [cbn [snd]; flatten_trace; reflexivity |]); cbn [fst].
  - split.
    + right. exists 0, FOCUS_WRITE, e. repeat split.
    + unfold FOCUS_WRITE, SHUTTER_AND_FOCUS_WRITE, RELEASE_WRITE, completed,
        failed. simpl. intuition (try discriminate; try congruence).
  - split.
    + right. exists 1, (Sleep 300), e. repeat split.
    + unfold FOCUS_WRITE, SHUTTER_AND_FOCUS_WRITE, RELEASE_WRITE, completed,
        failed. simpl. intuition (try discriminate; try congruence).
  - split.
    + right. exists 2, SHUTTER_AND_FOCUS_WRITE, e. repeat split.
    + unfold FOCUS_WRITE, SHUTTER_AND_FOCUS_WRITE, RELEASE_WRITE, completed,
        failed. simpl. intuition (try discriminate; try congruence).
  - split.
    + right. exists 3, RELEASE_WRITE, e. repeat split.
    + unfold FOCUS_WRITE, SHUTTER_AND_FOCUS_WRITE, RELEASE_WRITE, completed,
        failed. simpl. intuition (try discriminate; try congruence).
  - split.
    + left. split; [reflexivity | now exists tt].
    + unfold FOCUS_WRITE, SHUTTER_AND_FOCUS_WRITE, RELEASE_WRITE, completed,
        failed. simpl. intuition (try discriminate; try congruence).
Qed.

Lemma trigger_shutter_stops_at_first_failure_witness :
  In RELEASE_WRITE (map call (snd (trigger_shutter ideal []))).
Proof.
  destruct (trigger_shutter_stops_at_first_failure ideal [])
    as (es & Hes & _ & Hrel).
  rewrite Hes. apply Hrel.
  assert (Hall : In (completed FOCUS_WRITE) (snd (trigger_shutter ideal [])) /\
                 In (completed (Sleep 300)) (snd (trigger_shutter ideal [])) /\
                 In (completed SHUTTER_AND_FOCUS_WRITE)
                   (snd (trigger_shutter ideal []))).
  { vm_compute. intuition. }
  rewrite Hes in Hall. exact Hall.
Defined.

(** ** Indications *)




(** ** Sessions *)

Lemma aexit_eq {A : Type} (env : Env) (r : result A) (t : Trace) :
  aexit env r t =
  match fault env t Disconnect with
  | Some e => (Raise e, t ++ [failed Disconnect e])
  | None => (r, t ++ [completed Disconnect])
  end.
Proof.
  unfold aexit, await, perform, perform_raising.
  destruct (fault env t Disconnect); reflexivity.
Qed.

Lemma take_photo_eq (env : Env) (t : Trace) :
  let t1 := t ++ [completed (Connect CAMERA_ADDR)] in
  let t2 :=
    t1 ++ [completed (Print (isoformat_milliseconds (now env t1) ++
                             " Connected to camera!"))] in
  take_photo env t =
  match fault env t (Connect CAMERA_ADDR) with
  | Some e => (Raise e, t ++ [failed (Connect CAMERA_ADDR) e])
  | None =>
      if is_connected env t1 then
        match handshake env t2 with
        | (Raise e, t3) => aexit env (Raise e) t3
        | (Return _, t3) =>
            match trigger_shutter env t3 with
            | (Raise e, t4) => aexit env (Raise e) t4
            | (Return _, t4) =>
                aexit env (Return tt)
                  (t4 ++ [completed
                            (Print (isoformat_milliseconds (now env t4) ++
                                    " Disconnecting. Physical buttons unlocked."))])
            end
        end
      else
        aexit env (Return tt)
          (t1 ++ [completed (Print "Failed to connect to camera.")])
  end.
Proof.
  intros t1 t2. unfold take_photo, async_with_BleakClient.
  unfold await at 1. unfold perform, perform_raising.
  destruct (fault env t (Connect CAMERA_ADDR)) as [e|]; [reflexivity |].
  fold t1. destruct (is_connected env t1); cbn [negb].
  - unfold bind at 1. unfold timestamp at 1. cbv beta iota.
    unfold bind at 1. unfold print at 1. unfold perform. cbv beta iota.
    fold t2. unfold bind at 1.
    destruct (handshake env t2) as [[[]|e] t3]; [| reflexivity].
    unfold bind at 1.
    destruct (trigger_shutter env t3) as [[[]|e] t4]; [| reflexivity].
    unfold bind, timestamp, print, perform. cbv beta iota.
    reflexivity.
  - unfold print, perform. reflexivity.
Qed.

(** Splits a goal about [take_photo] into the paths of the session: one per
    place where the environment decides. *)
Ltac split_paths env :=
  repeat match goal with
         | |- context [take_photo env ?u] =>
             let H := fresh in
             pose proof (take_photo_eq env u) as H; cbv zeta in H;
             rewrite H; clear H
         | |- context [handshake env ?u] => rewrite (handshake_eq env u)
         | |- context [trigger_shutter env ?u] =>
             let H := fresh in
             pose proof (trigger_shutter_eq env u) as H; cbv zeta in H;
             rewrite H; clear H
         | |- context [aexit env ?r ?u] => rewrite (aexit_eq env r u)
         | |- context [fault env ?u ?c] => destruct (fault env u c) as [?e|]
         | |- context [is_connected env ?u] => destruct (is_connected env u)
         end.

(** Names the events a path appended to the trace [t]. *)
Ltac name_suffix t :=
  cbn [fst snd]; flatten_trace;
  match goal with
  | |- exists es : Trace, t ++ ?l = t ++ es /\ _ =>
      exists l; split; [reflexivity |]
  end.

Lemma hex_injective (d d' : bytearray) : hex d = hex d' -> d = d'.
Proof.
  intros H. apply (f_equal fromhex) in H.
  rewrite !fromhex_hex in H. congruence.
Qed.

Lemma is_handshake_write_iff (c : Call) :
  is_handshake_write c = true <-> c = HANDSHAKE_WRITE.
Proof.
  split.
  - destruct c as [| | |u d r| | | |]; try discriminate.
    unfold is_handshake_write.
    rewrite !andb_true_iff, !String.eqb_eq.
    intros [[-> Hd] ->]. apply hex_injective in Hd. now subst d.
  - intros ->. reflexivity.
Qed.

(** C2.  Whatever the environment does, a session of [take_photo] whose
    connection was made consists of the connect, a body without any connect
    or disconnect, and one disconnect as its last event: the disconnect is
    invoked exactly once on every path, before [take_photo] returns or
    raises.  When the disconnect itself raises, its exception is what
    [take_photo] raises. *)
Theorem take_photo_disconnects_once (env : Env) (t : Trace) :
  fault env t (Connect CAMERA_ADDR) = None ->
  exists es : Trace,
    snd (take_photo env t) = t ++ es /\
    count is_disconnect es = 1 /\
    exists (body : Trace) (last : Event),
      es = completed (Connect CAMERA_ADDR) :: body ++ [last] /\
      call last = Disconnect /\
      count is_disconnect body = 0 /\
      count is_connect body = 0 /\
      (forall e : exn,
          raised last = Some e -> fst (take_photo env t) = Raise e).
Proof.
  intros Hc.
  pose proof (take_photo_eq env t) as H; cbv zeta in H; rewrite H; clear H.
  rewrite Hc.
  split_paths env; name_suffix t;
    (split; [reflexivity |]);
    match goal with
    | |- exists (body : Trace) (last : Event), ?l = _ /\ _ =>
        exists (removelast (tl l)), (List.last l (completed Disconnect))
    end;
    repeat split;
    cbn [List.last raised failed completed]; intros e' He';
    try discriminate He'; now injection He' as ->.
Qed.

Lemma take_photo_disconnects_once_witness :
  count is_disconnect
    (snd (take_photo (failing is_focus_write write_failed) [])) = 1 /\
  count is_disconnect (snd (take_photo handshake_and_disconnect_fail [])) = 1.
Proof.
  split.
  - destruct (take_photo_disconnects_once
                (failing is_focus_write write_failed) [] eq_refl)
      as (es & Hes & Hcount & _).
    rewrite Hes. exact Hcount.
  - destruct (take_photo_disconnects_once
                handshake_and_disconnect_fail [] eq_refl)
      as (es & Hes & Hcount & _).
    rewrite Hes. exact Hcount.
Defined.

Lemma guarded_by_sound (hw : Call -> bool) (pre : Trace) :
  forall (unlocked : bool) (ev : Event) (post : Trace),
    guarded_by hw unlocked (pre ++ ev :: post) = true ->
    is_write_to SHUTTER_HANDLE (call ev) = true ->
    unlocked = true \/
    exists h : Event, In h pre /\ hw (call h) = true /\ is_completed h = true.
Proof.
  induction pre as [|a pre IH]; intros unlocked ev post Hg Hw.
  - cbn [app guarded_by] in Hg. rewrite Hw in Hg.
    apply andb_true_iff in Hg. left. tauto.
  - cbn [app guarded_by] in Hg.
    destruct (is_write_to SHUTTER_HANDLE (call a)).
    + apply andb_true_iff in Hg. destruct Hg as [Hu Hg].
      left. exact Hu.
    + destruct (IH _ _ _ Hg Hw) as [Hu | (h & Hin & Hh & Hc)].
      * apply orb_true_iff in Hu. destruct Hu as [Hu | Hu]; [now left |].
        apply andb_true_iff in Hu. right. exists a.
        split; [now left | tauto].
      * right. exists h. split; [now right | tauto].
Qed.

(** C5, as the code has it.  The claim that a failed handshake is what the
    session reports fails: when the handshake write raises and the
    disconnect on leaving the block raises too, [take_photo] raises the
    disconnect's exception, not the handshake's. *)
Lemma handshake_failure_replaced :
  In (failed HANDSHAKE_WRITE write_failed)
    (snd (take_photo handshake_and_disconnect_fail [])) /\
  fst (take_photo handshake_and_disconnect_fail []) = Raise TimeoutError /\
  fst (take_photo handshake_and_disconnect_fail []) <> Raise write_failed.
Proof.
  split; [vm_compute; tauto |].
  split; [vm_compute; reflexivity | vm_compute; discriminate].
Qed.

(** C5, amended.  In a session of [take_photo], every write to
    [SHUTTER_HANDLE] comes after the handshake write has completed.  When
    the handshake write raises [e], the session makes no write to
    [SHUTTER_HANDLE] and invokes the disconnect once; it raises [e] when
    that disconnect completes, and the disconnect's own exception when the
    disconnect raises. *)
Theorem shutter_needs_handshake (env : Env) (t : Trace) :
  exists es : Trace,
    snd (take_photo env t) = t ++ es /\
    (forall (pre : Trace) (ev : Event) (post : Trace),
        es = pre ++ ev :: post ->
        is_write_to SHUTTER_HANDLE (call ev) = true ->
        In (completed HANDSHAKE_WRITE) pre) /\
    (forall e : exn,
        In (failed HANDSHAKE_WRITE e) es ->
        count (is_write_to SHUTTER_HANDLE) es = 0 /\
        count is_disconnect es = 1 /\
        ((In (completed Disconnect) es /\
          fst (take_photo env t) = Raise e) \/
         (exists e' : exn,
             In (failed Disconnect e') es /\
             fst (take_photo env t) = Raise e'))).
Proof.
  assert (Hsound : forall es : Trace,
             guarded_by is_handshake_write false es = true ->
             forall (pre : Trace) (ev : Event) (post : Trace),
               es = pre ++ ev :: post ->
               is_write_to SHUTTER_HANDLE (call ev) = true ->
               In (completed HANDSHAKE_WRITE) pre).
  { intros es Hg pre ev post -> Hw.
    destruct (guarded_by_sound _ _ _ _ _ Hg Hw)
      as [Hu | (h & Hin & Hh & Hc)]; [discriminate |].
    apply is_handshake_write_iff in Hh.
    destruct h as [c [e|]]; [discriminate |].
    cbn [call] in Hh. subst c. exact Hin. }
  split_paths env; name_suffix t;
    (split; [apply Hsound; reflexivity |]);
    intros e' Hin;
    unfold HANDSHAKE_WRITE, FOCUS_WRITE, SHUTTER_AND_FOCUS_WRITE,
      RELEASE_WRITE, completed, failed in Hin;
    simpl in Hin;
    repeat match type of Hin with
           | _ \/ _ => destruct Hin as [Hin | Hin]
           end;
    try contradiction; try discriminate;
    injection Hin as ->;
    (split; [reflexivity | split; [reflexivity |]]);
    first
      [ left; split; [simpl; tauto | reflexivity]
      | right; eexists; split; [simpl; tauto | reflexivity] ].
Qed.

Lemma shutter_needs_handshake_witness :
  count (is_write_to SHUTTER_HANDLE)
    (snd (take_photo (failing is_handshake_write write_failed) [])) = 0 /\
  count is_disconnect
    (snd (take_photo (failing is_handshake_write write_failed) [])) = 1.
Proof.
  destruct (shutter_needs_handshake
              (failing is_handshake_write write_failed) [])
    as (es & Hes & _ & Hfail).
  rewrite Hes.
  assert (Hin : In (failed HANDSHAKE_WRITE write_failed)
                  (snd (take_photo
                          (failing is_handshake_write write_failed) []))).
  { vm_compute. right. right. left. reflexivity. }
  rewrite Hes in Hin.
  destruct (Hfail write_failed Hin) as (Hw & Hd & _).
  split; assumption.
Defined.

(** C10, as the code has it.  The claim that [take_photo] returns when the
    client reports that it is not connected fails when the disconnect on
    leaving the block raises: [take_photo] then raises that exception. *)
Lemma not_connected_may_raise :
  take_photo not_connected_disconnect_fails [] =
    (Raise TimeoutError,
     [completed (Connect CAMERA_ADDR);
      completed (Print "Failed to connect to camera.");
      failed Disconnect TimeoutError]).
Proof. vm_compute. reflexivity. Qed.

(** C10, amended.  When the connection is made but [client.is_connected] is
    false right after entering the block, [take_photo] prints that it failed
    to connect and leaves the block: between the connect and the disconnect
    there is no write, no read and no subscription.  It returns when the
    disconnect completes and raises the disconnect's exception otherwise. *)
Theorem take_photo_not_connected (env : Env) (t : Trace) :
  fault env t (Connect CAMERA_ADDR) = None ->
  is_connected env (t ++ [completed (Connect CAMERA_ADDR)]) = false ->
  let t2 := t ++ [completed (Connect CAMERA_ADDR);
                  completed (Print "Failed to connect to camera.")] in
  let bye := {| call := Disconnect; raised := fault env t2 Disconnect |} in
  snd (take_photo env t) = t2 ++ [bye] /\
  fst (take_photo env t) =
    match fault env t2 Disconnect with
    | None => Return tt
    | Some e => Raise e
    end /\
  exists es : Trace,
    snd (take_photo env t) = t ++ es /\
    count is_write es = 0 /\
    count is_read es = 0 /\
    count is_notify es = 0 /\
    transport es = [completed (Connect CAMERA_ADDR); bye].
Proof.
  intros Hc Hn t2 bye. subst bye.
  pose proof (take_photo_eq env t) as H; cbv zeta in H; rewrite H; clear H.
  rewrite Hc, Hn, aexit_eq. flatten_trace. fold t2.
  destruct (fault env t2 Disconnect) as [e|]; subst t2;
    (split; [cbn [snd]; flatten_trace; reflexivity |]);
    (split; [reflexivity |]);
    eexists; (split; [cbn [snd]; flatten_trace; reflexivity |]);
    repeat split.
Qed.

Lemma take_photo_not_connected_witness :
  take_photo not_connected [] =
    (Return tt,
     [completed (Connect CAMERA_ADDR);
      completed (Print "Failed to connect to camera.");
      completed Disconnect]).
Proof.
  destruct (take_photo_not_connected not_connected [] eq_refl eq_refl)
    as (Hsnd & Hfst & _).
  apply injective_projections; [exact Hfst | exact Hsnd].
Defined.

(** ** The interactive loop *)

Lemma sequential_app (es1 es2 : Trace) :
  forall active : bool,
    sequential active (es1 ++ es2) =
    sequential active es1 && sequential (active_after active es1) es2.
Proof.
  induction es1 as [|ev es1 IH]; intros active; cbn [app sequential active_after];
    [reflexivity |].
  destruct (call ev); rewrite ?IH; try reflexivity.
  destruct active; reflexivity.
Qed.

Lemma active_after_app (es1 es2 : Trace) :
  forall active : bool,
    active_after active (es1 ++ es2) =
    active_after (active_after active es1) es2.
Proof.
  induction es1 as [|ev es1 IH]; intros active; cbn [app active_after];
    [reflexivity |].
  destruct (call ev); apply IH.
Qed.

Lemma sequential_sound (pre : Trace) :
  forall (active : bool) (ev : Event) (post : Trace),
    sequential active (pre ++ ev :: post) = true ->
    is_connect (call ev) = true ->
    active_after active pre = false.
Proof.
  intros active ev post Hs Hc.
  rewrite sequential_app in Hs. apply andb_true_iff in Hs.
  destruct Hs as [_ Hs]. cbn [sequential] in Hs.
  destruct (call ev); try discriminate.
  destruct (active_after active pre); [discriminate | reflexivity].
Qed.

(** One call of [take_photo] is one session, closed when it returns
    normally. *)
Lemma take_photo_one_session (env : Env) (t : Trace) :
  exists es : Trace,
    snd (take_photo env t) = t ++ es /\
    sequential false es = true /\
    (fst (take_photo env t) = Return tt -> active_after false es = false).
Proof.
  split_paths env; name_suffix t;
    (split; [reflexivity |]); intros H; try discriminate H; reflexivity.
Qed.

Lemma main_loop_cons (env : Env) (line : string) (rest : list string)
    (t : Trace) :
  main_loop env (line :: rest) t =
  if quits line then (Return tt, t ++ [completed (Input ">> ")])
  else
    match take_photo env (t ++ [completed (Input ">> ")]) with
    | (Return _, t1) => main_loop env rest t1
    | (Raise e, t1) => (Raise e, t1)
    end.
Proof.
  cbn [main_loop]. unfold bind at 1. unfold perform. cbv beta iota.
  unfold quits. destruct (String.eqb (lower (strip line)) "q");
    [reflexivity |].
  unfold bind.
  destruct (take_photo env (t ++ [completed (Input ">> ")])) as [[[]|e] t1];
    reflexivity.
Qed.

Lemma main_loop_sessions (env : Env) (stdin : list string) :
  forall t : Trace,
  exists es : Trace,
    snd (main_loop env stdin t) = t ++ es /\
    sequential false es = true /\
    (fst (main_loop env stdin t) = Return tt -> active_after false es = false).
Proof.
  induction stdin as [|line rest IH]; intros t.
  - eexists. split; [reflexivity | split; [reflexivity | discriminate]].
  - rewrite main_loop_cons. destruct (quits line).
    + eexists. split; [reflexivity | split; reflexivity].
    + destruct (take_photo_one_session env (t ++ [completed (Input ">> ")]))
        as (es1 & H1 & Hs1 & Ha1).
      destruct (take_photo env (t ++ [completed (Input ">> ")]))
        as [[[]|e] t1]; cbn [fst snd] in H1, Ha1; subst t1.
      * destruct (IH ((t ++ [completed (Input ">> ")]) ++ es1))
          as (es2 & H2 & Hs2 & Ha2).
        exists (completed (Input ">> ") :: es1 ++ es2).
        split; [rewrite H2; flatten_trace; reflexivity |].
        cbn [sequential active_after call completed].
        rewrite sequential_app, active_after_app, Hs1, (Ha1 eq_refl), Hs2.
        split; [reflexivity | exact Ha2].
      * exists (completed (Input ">> ") :: es1).
        split; [cbn [snd]; flatten_trace; reflexivity |].
        cbn [sequential active_after call completed fst].
        split; [assumption | discriminate].
Qed.

(** C7, as the code has it.  [take_photo] has no busy check: entered while
    a connection is open, it connects a second time and returns normally;
    nothing is rejected and nothing waits. *)
Lemma take_photo_has_no_busy_check :
  sequential false
    (snd (take_photo ideal [completed (Connect CAMERA_ADDR)])) = false /\
  fst (take_photo ideal [completed (Connect CAMERA_ADDR)]) = Return tt /\
  exists rest : Trace,
    snd (take_photo ideal [completed (Connect CAMERA_ADDR)]) =
      completed (Connect CAMERA_ADDR) :: completed (Connect CAMERA_ADDR) ::
      rest.
Proof.
  split; [vm_compute; reflexivity |].
  split; [vm_compute; reflexivity |].
  eexists. vm_compute. reflexivity.
Qed.

(** C7, amended.  [take_photo] itself never refuses and never waits:
    whatever happened before, its first call is the connect.  Sessions are
    kept apart by [main] alone, which awaits each [take_photo] before it
    reads the next line: in a run of [main], whatever is typed and whatever
    the transport does, every connect of the trace is made when no
    connection is open, and none is left open when [main] returns
    normally. *)
Theorem sessions_never_overlap (env : Env) (stdin : list string) :
  let es := snd (main env stdin []) in
  sequential false es = true /\
  (fst (main env stdin []) = Return tt -> active_after false es = false) /\
  (forall (pre : Trace) (ev : Event) (post : Trace),
      es = pre ++ ev :: post ->
      is_connect (call ev) = true ->
      active_after false pre = false) /\
  (forall t : Trace,
      exists (ev : Event) (rest : Trace),
        snd (take_photo env t) = t ++ ev :: rest /\
        call ev = Connect CAMERA_ADDR).
Proof.
  intros es.
  assert (Hes : sequential false es = true /\
                (fst (main env stdin []) = Return tt ->
                 active_after false es = false)).
  { subst es.
    set (banner :=
           completed (Print "Press ENTER to take a photo, or type 'q' to quit.")).
    change (main env stdin []) with (main_loop env stdin ([] ++ [banner])).
    destruct (main_loop_sessions env stdin ([] ++ [banner]))
      as (es1 & H1 & Hs1 & Ha1).
    rewrite H1. subst banner.
    cbn [app sequential active_after call completed].
    split; assumption. }
  destruct Hes as [Hs Ha].
  split; [exact Hs | split; [exact Ha | split]].
  - intros pre ev post Heq Hc. rewrite Heq in Hs.
    exact (sequential_sound _ _ _ _ Hs Hc).
  - intros t. split_paths env; cbn [snd]; flatten_trace;
      do 2 eexists; split; reflexivity.
Qed.

Lemma sessions_never_overlap_witness :
  active_after false
    [completed (Print "Press ENTER to take a photo, or type 'q' to quit.");
     completed (Input ">> ");
     completed (Connect CAMERA_ADDR);
     completed (Print "Failed to connect to camera.");
     completed Disconnect;
     completed (Input ">> ")] = false /\
  active_after false (snd (main ideal [""; "q"] [])) = false.
Proof.
  split.
  - exact (proj1 (proj2 (proj2 (sessions_never_overlap not_connected [""; ""])))
             [completed
                (Print "Press ENTER to take a photo, or type 'q' to quit.");
              completed (Input ">> ");
              completed (Connect CAMERA_ADDR);
              completed (Print "Failed to connect to camera.");
              completed Disconnect;
              completed (Input ">> ")]
             (completed (Connect CAMERA_ADDR))
             [completed (Print "Failed to connect to camera.");
              completed Disconnect;
              failed (Input ">> ") EOFError]
             eq_refl eq_refl).
  - exact (proj1 (proj2 (sessions_never_overlap ideal [""; "q"])) eq_refl).
Defined.

(** * Further properties *)

(** ** Device information *)

Lemma read_gatt_char_eq (env : Env) (u : string) (t : Trace) :
  read_gatt_char env u t =
  match fault env t (ReadGattChar u) with
  | Some e => (Raise e, t ++ [failed (ReadGattChar u) e])
  | None => (Return (read_value env t u), t ++ [completed (ReadGattChar u)])
  end.
Proof.
  unfold read_gatt_char, await, perform, perform_raising.
  destruct (fault env t (ReadGattChar u)); reflexivity.
Qed.

Lemma read_device_info_eq (env : Env) (t : Trace) :
  let t1 := t ++ [completed (ReadGattChar MANUFACTURER_NAME)] in
  let t2 := t1 ++ [completed (ReadGattChar MODEL_NUMBER)] in
  let t3 := t2 ++ [completed (ReadGattChar SERIAL_NUMBER)] in
  let t4 := t3 ++ [completed (ReadGattChar SOFTWARE_REVISION)] in
  read_device_info env t =
  match fault env t (ReadGattChar MANUFACTURER_NAME) with
  | Some e => (Raise e, t ++ [failed (ReadGattChar MANUFACTURER_NAME) e])
  | None =>
  match fault env t1 (ReadGattChar MODEL_NUMBER) with
  | Some e => (Raise e, t1 ++ [failed (ReadGattChar MODEL_NUMBER) e])
  | None =>
  match fault env t2 (ReadGattChar SERIAL_NUMBER) with
  | Some e => (Raise e, t2 ++ [failed (ReadGattChar SERIAL_NUMBER) e])
  | None =>
  match fault env t3 (ReadGattChar SOFTWARE_REVISION) with
  | Some e => (Raise e, t3 ++ [failed (ReadGattChar SOFTWARE_REVISION) e])
  | None =>
      (Return tt,
       t4 ++
       [completed (Print (newline ++ "--- Device Info ---"));
        completed (Print ("Manufacturer: " ++
                          bytes_to_str (read_value env t MANUFACTURER_NAME)));
        completed (Print ("Model:        " ++
                          bytes_to_str (read_value env t1 MODEL_NUMBER)));
        completed (Print ("Serial:       " ++
                          bytes_to_str (read_value env t2 SERIAL_NUMBER)));
        completed (Print ("Software:     " ++
                          bytes_to_str (read_value env t3 SOFTWARE_REVISION)));
        completed (Print ("-------------------" ++ newline))])
  end end end end.
Proof.
  intros t1 t2 t3 t4. unfold read_device_info.
  unfold bind at 1. rewrite read_gatt_char_eq.
  destruct (fault env t (ReadGattChar MANUFACTURER_NAME)); [reflexivity |].
  fold t1. unfold bind at 1. rewrite read_gatt_char_eq.
  destruct (fault env t1 (ReadGattChar MODEL_NUMBER)); [reflexivity |].
  fold t2. unfold bind at 1. rewrite read_gatt_char_eq.
  destruct (fault env t2 (ReadGattChar SERIAL_NUMBER)); [reflexivity |].
  fold t3. unfold bind at 1. rewrite read_gatt_char_eq.
  destruct (fault env t3 (ReadGattChar SOFTWARE_REVISION)); [reflexivity |].
  fold t4. unfold bind, print, perform. cbv beta iota.
  flatten_trace. reflexivity.
Qed.

(** X1.  [read_device_info] reads manufacturer, model, serial number and
    software revision in this order and stops at the first read that raises.
    It writes nothing, and it prints nothing unless all four reads
    completed: a failing read leaves no partial report. *)
Theorem read_device_info_reads (env : Env) (t : Trace) :
  exists es : Trace,
    snd (read_device_info env t) = t ++ es /\
    stops_at_first_failure DEVICE_INFO_READS (transport es)
      (fst (read_device_info env t)) /\
    count is_write es = 0 /\
    (forall e : exn,
        fst (read_device_info env t) = Raise e -> count is_print es = 0) /\
    (fst (read_device_info env t) = Return tt -> count is_print es = 6).
Proof.
  pose proof (read_device_info_eq env t) as Heq. cbv zeta in Heq.
  rewrite Heq. clear Heq.
  repeat match goal with
         | |- context [fault env ?u ?c] => destruct (fault env u c) as [e|]
         end;
    eexists; (split; [cbn [snd]; flatten_trace; reflexivity |]); cbn [fst].
  - split; [| repeat split; discriminate].
    right. exists 0, (ReadGattChar MANUFACTURER_NAME), e. repeat split.
  - split; [| repeat split; discriminate].
    right. exists 1, (ReadGattChar MODEL_NUMBER), e. repeat split.
  - split; [| repeat split; discriminate].
    right. exists 2, (ReadGattChar SERIAL_NUMBER), e. repeat split.
  - split; [| repeat split; discriminate].
    right. exists 3, (ReadGattChar SOFTWARE_REVISION), e. repeat split.
  - split; [| repeat split; discriminate].
    left. split; [reflexivity | now exists tt].
Qed.

Lemma read_device_info_reads_witness :
  count is_print
    (snd (read_device_info (failing is_serial_read write_failed) [])) = 0 /\
  count is_print (snd (read_device_info camera_info [])) = 6.
Proof.
  split.
  - destruct (read_device_info_reads (failing is_serial_read write_failed) [])
      as (es & Hes & _ & _ & Hraise & _).
    rewrite Hes. exact (Hraise write_failed eq_refl).
  - destruct (read_device_info_reads camera_info [])
      as (es & Hes & _ & _ & _ & Hok).
    rewrite Hes. exact (Hok eq_refl).
Defined.

(** X2.  When [read_device_info] returns normally it has made the four
    reads before printing anything, and then printed six lines: the header,
    one line per value in the order manufacturer, model, serial, software,
    each showing [bytes_to_str] of the bytes read (so ["N/A"] for an empty
    value), and the footer. *)
Theorem read_device_info_report (env : Env) (t t' : Trace) :
  read_device_info env t = (Return tt, t') ->
  let t1 := t ++ [completed (ReadGattChar MANUFACTURER_NAME)] in
  let t2 := t1 ++ [completed (ReadGattChar MODEL_NUMBER)] in
  let t3 := t2 ++ [completed (ReadGattChar SERIAL_NUMBER)] in
  let manufacturer := read_value env t MANUFACTURER_NAME in
  let model := read_value env t1 MODEL_NUMBER in
  let serial := read_value env t2 SERIAL_NUMBER in
  let software := read_value env t3 SOFTWARE_REVISION in
  t' = t ++ map completed DEVICE_INFO_READS ++
       map (fun line => completed (Print line))
         [String (ascii_of_N 10) "--- Device Info ---";
          "Manufacturer: " ++ bytes_to_str manufacturer;
          "Model:        " ++ bytes_to_str model;
          "Serial:       " ++ bytes_to_str serial;
          "Software:     " ++ bytes_to_str software;
          "-------------------" ++ String (ascii_of_N 10) EmptyString]%string /\
  (serial = [] ->
   In (completed (Print "Serial:       N/A")) t').
Proof.
  pose proof (read_device_info_eq env t) as Heq. cbv zeta in Heq.
  rewrite Heq. clear Heq.
  repeat match goal with
         | |- context [fault env ?u ?c] =>
             destruct (fault env u c); [discriminate |]
         end.
  intros H. injection H as <-. cbv zeta. split.
  - flatten_trace. reflexivity.
  - intros ->. flatten_trace. apply in_or_app. right.
    cbn [bytes_to_str truthy]. simpl. tauto.
Qed.

Lemma read_device_info_report_witness :
  snd (read_device_info camera_info []) =
    map completed DEVICE_INFO_READS ++
    map (fun line => completed (Print line))
      [String (ascii_of_N 10) "--- Device Info ---";
       "Manufacturer: Canon";
       "Model:        R5";
       "Serial:       N/A";
       "Software:     1.0";
       "-------------------" ++ String (ascii_of_N 10) EmptyString]%string.
Proof.
  exact (proj1 (read_device_info_report camera_info []
                  (snd (read_device_info camera_info [])) eq_refl)).
Defined.

(** ** What a shot leaves behind *)

(** X3.  [trigger_shutter] returns normally exactly when the last button
    state it got across is the release [0x00].  When it raises, the last
    state written is none, the half press [0x0C] or the full press [0x8C],
    never the release; the full press stays exactly when the release write
    itself raised. *)
Theorem trigger_shutter_button_state (env : Env) (t : Trace) :
  exists es : Trace,
    snd (trigger_shutter env t) = t ++ es /\
    (fst (trigger_shutter env t) = Return tt <->
     button_state None es = Some [x00]) /\
    (forall e : exn,
        fst (trigger_shutter env t) = Raise e ->
        button_state None es = None \/
        button_state None es = Some [x0c] \/
        button_state None es = Some [x8c]) /\
    (button_state None es = Some [x8c] <->
     exists e : exn, In (failed RELEASE_WRITE e) es).
Proof.
  pose proof (trigger_shutter_eq env t) as Heq. cbv zeta in Heq.
  rewrite Heq. clear Heq.
  repeat match goal with
         | |- context [fault env ?u ?c] => destruct (fault env u c) as [e|]
         end;
    eexists; (split; [cbn [snd]; flatten_trace; reflexivity |]); cbn [fst];
    unfold FOCUS_WRITE, SHUTTER_AND_FOCUS_WRITE, RELEASE_WRITE, completed,
      failed;
    cbn [button_state call raised is_completed String.eqb andb];
    change (String.eqb SHUTTER_HANDLE SHUTTER_HANDLE) with true;
    cbn [button_state call raised is_completed String.eqb andb];
    (split; [split; intros H; discriminate || reflexivity |]);
    (split; [intros e' He'; try discriminate; tauto |]);
    (split; [intros H; try discriminate | intros [e' Hin]]).
  all: try reflexivity.
  all: try (exfalso; simpl in Hin; intuition discriminate).
  exists e. simpl. tauto.
Qed.

Lemma trigger_shutter_button_state_witness :
  button_state None
    (snd (trigger_shutter (failing is_release_write write_failed) [])) =
    Some [x8c] /\
  button_state None (snd (trigger_shutter ideal [])) = Some [x00].
Proof.
  split.
  - destruct (trigger_shutter_button_state
                (failing is_release_write write_failed) [])
      as (es & Hes & _ & _ & Hpressed).
    rewrite Hes. apply Hpressed. exists write_failed.
    assert (Hin : In (failed RELEASE_WRITE write_failed)
                    (snd (trigger_shutter
                            (failing is_release_write write_failed) []))).
    { vm_compute. tauto. }
    rewrite Hes in Hin. exact Hin.
  - destruct (trigger_shutter_button_state ideal [])
      as (es & Hes & Hok & _).
    rewrite Hes. apply Hok. reflexivity.
Defined.

(** ** Outcomes of a session *)

(** X4.  When [take_photo] returns normally, no call of the session raised,
    and the session was one of two: with the client connected, the whole
    sequence connect, handshake write, focus write, sleep, full-press write,
    release write, disconnect, leaving the buttons released; with the client
    not connected, the connect and the disconnect alone. *)
Theorem take_photo_returns (env : Env) (t t' : Trace) :
  take_photo env t = (Return tt, t') ->
  exists es : Trace,
    t' = t ++ es /\
    forallb is_completed es = true /\
    if is_connected env (t ++ [completed (Connect CAMERA_ADDR)])
    then transport es = map completed SESSION_STEPS /\
         button_state None es = Some [x00]
    else transport es = map completed [Connect CAMERA_ADDR; Disconnect] /\
         button_state None es = None.
Proof.
  split_paths env; intros H; try discriminate; injection H as <-;
    flatten_trace; eexists; (split; [reflexivity |]);
    repeat split.
Qed.

Lemma take_photo_returns_witness :
  transport (snd (take_photo ideal [])) = map completed SESSION_STEPS.
Proof.
  destruct (take_photo_returns ideal [] (snd (take_photo ideal [])) eq_refl)
    as (es & Hes & _ & Hsteps).
  rewrite Hes. exact (proj1 Hsteps).
Defined.

(** X5.  When [take_photo] raises [e], [e] is the exception of the last
    call of the session that raised, and that call is among its last two.
    Either the connect raised and nothing else was called, not even the
    disconnect; or a call of the body raised [e], every call before it
    completed and the disconnect followed at once and completed; or every
    call of the body completed and the disconnect raised [e]; or a call of
    the body raised, the disconnect followed at once and raised [e], which
    replaces the body's exception.  Nothing is retried and no call of the
    body is attempted after a failure. *)
Theorem take_photo_raises (env : Env) (t : Trace) (e : exn) :
  fst (take_photo env t) = Raise e ->
  exists es : Trace,
    snd (take_photo env t) = t ++ es /\
    (es = [failed (Connect CAMERA_ADDR) e] \/
     (exists (pre : Trace) (c : Call),
         is_connect c = false /\
         is_disconnect c = false /\
         forallb is_completed pre = true /\
         es = completed (Connect CAMERA_ADDR) :: pre ++
              [failed c e; completed Disconnect]) \/
     (exists pre : Trace,
         forallb is_completed pre = true /\
         count is_disconnect pre = 0 /\
         es = completed (Connect CAMERA_ADDR) :: pre ++
              [failed Disconnect e]) \/
     (exists (pre : Trace) (c : Call) (e' : exn),
         is_connect c = false /\
         is_disconnect c = false /\
         forallb is_completed pre = true /\
         es = completed (Connect CAMERA_ADDR) :: pre ++
              [failed c e'; failed Disconnect e])).
Proof.
  split_paths env; cbn [fst snd]; intros H; try discriminate;
    injection H as ->; name_suffix t;
    match goal with
    | |- ?l = _ \/ _ =>
        first
          [ left; reflexivity
          | right; left;
            match l with
            | context [failed ?c e :: completed Disconnect :: nil] =>
                exists (removelast (removelast (tl l))), c
            end;
            solve [repeat split]
          | right; right; left;
            exists (removelast (tl l));
            solve [repeat split]
          | right; right; right;
            match l with
            | context [failed ?c ?e' :: failed Disconnect e :: nil] =>
                exists (removelast (removelast (tl l))), c, e'
            end;
            solve [repeat split] ]
    end.
Qed.

Lemma take_photo_raises_witness :
  snd (take_photo (failing is_connect write_failed) []) =
    [failed (Connect CAMERA_ADDR) write_failed].
Proof.
  destruct (take_photo_raises (failing is_connect write_failed) []
              write_failed eq_refl)
    as (es & Hes & [-> | [(pre & c & _ & _ & _ & ->)
                         | [(pre & _ & _ & ->)
                           | (pre & c & e' & _ & _ & _ & ->)]]]).
  - exact Hes.
  - vm_compute in Hes. discriminate Hes.
  - vm_compute in Hes. discriminate Hes.
  - vm_compute in Hes. discriminate Hes.
Defined.

(** X6.  A session of [take_photo] never reads a characteristic, never
    subscribes to notifications and never reads the console.  It connects
    once, writes the handshake at most once, writes to [SHUTTER_HANDLE] at
    most three times, writes to no other characteristic and sleeps at most
    once. *)
Theorem take_photo_never (env : Env) (t : Trace) :
  exists es : Trace,
    snd (take_photo env t) = t ++ es /\
    count is_read es = 0 /\
    count is_notify es = 0 /\
    count is_input es = 0 /\
    count is_connect es = 1 /\
    count is_handshake_write es <= 1 /\
    count (is_write_to SHUTTER_HANDLE) es <= 3 /\
    count is_write es =
      count is_handshake_write es + count (is_write_to SHUTTER_HANDLE) es /\
    count is_sleep es <= 1.
Proof.
  split_paths env; name_suffix t;
    repeat match goal with
           | |- _ /\ _ => split
           | |- _ <= _ => apply Nat.leb_le
           end;
    reflexivity.
Qed.

(** ** Reading device values back *)

Lemma str_to_bytes_join (data : bytearray) :
  str_to_bytes (join (map chr data)) = data.
Proof.
  unfold str_to_bytes, join. rewrite list_ascii_of_string_of_list_ascii.
  rewrite map_map. induction data as [|b data IH]; [reflexivity |].
  cbn [map]. unfold chr at 1. now rewrite byte_of_ascii_of_byte, IH.
Qed.

(** X7.  [bytes_to_str] can be read back except for one collision: the bytes
    of a non-empty value are recovered from its string, and two values print
    the same only if they are equal or one is empty and the other is the
    three bytes of ["N/A"] itself. *)
Theorem bytes_to_str_collision (d d' : bytearray) :
  (forall (b : byte) (rest : bytearray),
      str_to_bytes (bytes_to_str (b :: rest)) = b :: rest) /\
  (bytes_to_str d = bytes_to_str d' <->
   d = d' \/
   (d = [] /\ d' = [x4e; x2f; x41]) \/
   (d = [x4e; x2f; x41] /\ d' = [])).
Proof.
  split.
  - intros b rest. unfold bytes_to_str. cbn [truthy].
    apply str_to_bytes_join.
  - split.
    + intros H. apply (f_equal str_to_bytes) in H.
      unfold bytes_to_str in H.
      destruct d as [|b r], d' as [|b' r']; cbn [truthy] in H.
      * now left.
      * rewrite str_to_bytes_join in H. right. left. split; [reflexivity |].
        symmetry. exact H.
      * rewrite str_to_bytes_join in H. right. right. split; [| reflexivity].
        exact H.
      * rewrite !str_to_bytes_join in H. now left.
    + intros [-> | [[-> ->] | [-> ->]]]; reflexivity.
Qed.

(** ** The quit command *)

Lemma lower_char_q (c : ascii) :
  lower_char c = "q"%char <-> c = "q"%char \/ c = "Q"%char.
Proof.
  destruct c as [[] [] [] [] [] [] [] []]; vm_compute;
    split; intros H; try discriminate H; try tauto;
    destruct H as [H | H]; discriminate H.
Qed.

Lemma lower_q (s : string) :
  lower s = "q" <->
  exists c : ascii, s = String c EmptyString /\ (c = "q"%char \/ c = "Q"%char).
Proof.
  split.
  - destruct s as [|c [|c' s']]; cbn [lower]; intros H; try discriminate H.
    injection H as H. exists c. split; [reflexivity |].
    now apply lower_char_q.
  - intros (c & -> & Hc). cbn [lower]. f_equal. now apply lower_char_q.
Qed.

Lemma lstrip_spec (s : string) :
  exists l : string, s = (l ++ lstrip s)%string /\ all_space l = true.
Proof.
  induction s as [|c s (l & Hl & Hsp)]; [now exists EmptyString |].
  cbn [lstrip]. destruct (isspace c) eqn:Hc.
  - exists (String c l). cbn [String.append all_space].
    rewrite Hc, Hsp, <- Hl. now split.
  - now exists EmptyString.
Qed.

Lemma rstrip_spec (s : string) :
  exists r : string, s = (rstrip s ++ r)%string /\ all_space r = true.
Proof.
  induction s as [|c s (r & Hr & Hsp)]; [now exists EmptyString |].
  cbn [rstrip]. destruct (rstrip s) as [|c0 s0] eqn:Hs.
  - cbn [String.append] in Hr. subst r.
    destruct (isspace c) eqn:Hc.
    + exists (String c s). cbn [String.append all_space].
      rewrite Hc, Hsp. now split.
    + exists s. now split.
  - exists r. cbn [String.append] in *. rewrite <- Hr. now split.
Qed.

Lemma lstrip_all_space (l s : string) :
  all_space l = true -> lstrip (l ++ s) = lstrip s.
Proof.
  induction l as [|c l IH]; cbn [all_space String.append lstrip];
    [reflexivity |].
  intros H. apply andb_true_iff in H. destruct H as [Hc Hl].
  rewrite Hc. now apply IH.
Qed.

Lemma rstrip_all_space (r : string) :
  all_space r = true -> rstrip r = EmptyString.
Proof.
  induction r as [|c r IH]; cbn [all_space rstrip]; [reflexivity |].
  intros H. apply andb_true_iff in H. destruct H as [Hc Hr].
  now rewrite (IH Hr), Hc.
Qed.

(** X8.  The loop takes a line as the quit command exactly when it is a
    single [q] or [Q] with nothing but white space before and after it: the
    empty line, ["quit"] and ["q q"] all take a photo. *)
Theorem quits_iff (line : string) :
  (quits line = true <->
   exists (l r : string) (c : ascii),
     line = (l ++ String c r)%string /\
     all_space l = true /\ all_space r = true /\
     (c = "q"%char \/ c = "Q"%char)) /\
  quits "" = false /\ quits "quit" = false /\ quits "q q" = false.
Proof.
  split; [| repeat split].
  unfold quits. rewrite String.eqb_eq, lower_q. split.
  - intros (c & Hs & Hc). unfold strip in Hs.
    destruct (lstrip_spec line) as (l & Hl & Hlsp).
    destruct (rstrip_spec (lstrip line)) as (r & Hr & Hrsp).
    exists l, r, c. rewrite Hs in Hr. cbn [String.append] in Hr.
    rewrite Hr in Hl. now repeat split.
  - intros (l & r & c & -> & Hl & Hr & Hc). exists c.
    split; [| exact Hc]. unfold strip.
    rewrite (lstrip_all_space _ _ Hl). cbn [lstrip].
    assert (Hsp : isspace c = false) by (destruct Hc as [-> | ->]; reflexivity).
    rewrite Hsp. cbn [rstrip]. now rewrite (rstrip_all_space _ Hr), Hsp.
Qed.

Lemma quits_iff_witness :
  quits "  Q " = true.
Proof.
  apply (proj1 (quits_iff _)).
  exists "  ", " ", "Q"%char.
  repeat split. now right.
Defined.

(** ** Runs of the interactive loop *)

Lemma count_app (p : Call -> bool) (es1 es2 : Trace) :
  count p (es1 ++ es2) = count p es1 + count p es2.
Proof.
  unfold count, select. now rewrite filter_app, length_app.
Qed.

(** X9.  Nothing after the quit command matters: a run of [main] on lines
    that contain a quit command is the run on the lines up to and including
    it; what follows is never read. *)
Theorem main_stops_reading_at_quit (env : Env) (pre : list string)
    (q : string) (rest : list string) (t : Trace) :
  quits q = true ->
  main env (pre ++ q :: rest) t = main env (pre ++ [q]) t.
Proof.
  intros Hq. unfold main, bind, print, perform. cbv beta iota.
  generalize (t ++ [completed
                      (Print "Press ENTER to take a photo, or type 'q' to quit.")]).
  induction pre as [|line pre IH]; intros u; cbn [app].
  - now rewrite !main_loop_cons, Hq.
  - rewrite !main_loop_cons. destruct (quits line); [reflexivity |].
    destruct (take_photo env (u ++ [completed (Input ">> ")]))
      as [[[]|e] t1]; [apply IH | reflexivity].
Qed.

Lemma main_stops_reading_at_quit_witness :
  main ideal [""; " Q "; ""; "q"] [] = main ideal [""; " Q "] [].
Proof.
  exact (main_stops_reading_at_quit ideal [""] " Q " [""; "q"] [] eq_refl).
Defined.

(** A session that returns normally connected once, disconnected once, read
    nothing from the console, and none of its calls raised. *)
Lemma take_photo_return_counts (env : Env) (t t' : Trace) :
  take_photo env t = (Return tt, t') ->
  exists es : Trace,
    t' = t ++ es /\
    count is_connect es = 1 /\
    count is_disconnect es = 1 /\
    count is_input es = 0 /\
    forallb is_completed es = true.
Proof.
  split_paths env; intros H; try discriminate; injection H as <-;
    flatten_trace; eexists; (split; [reflexivity |]); repeat split.
Qed.

Lemma main_loop_returns (env : Env) (stdin : list string) :
  forall t t' : Trace,
    main_loop env stdin t = (Return tt, t') ->
    exists (pre : list string) (q : string) (rest : list string) (es : Trace),
      stdin = pre ++ q :: rest /\
      quits q = true /\
      forallb (fun line => negb (quits line)) pre = true /\
      t' = t ++ es /\
      count is_input es = S (List.length pre) /\
      count is_connect es = List.length pre /\
      count is_disconnect es = List.length pre /\
      forallb is_completed es = true.
Proof.
  induction stdin as [|line rest IH]; intros t t' H; [discriminate H |].
  rewrite main_loop_cons in H. destruct (quits line) eqn:Hq.
  - injection H as <-.
    exists [], line, rest, [completed (Input ">> ")]. now repeat split.
  - destruct (take_photo env (t ++ [completed (Input ">> ")]))
      as [[[]|e] t1] eqn:Hp; [| discriminate H].
    apply take_photo_return_counts in Hp.
    destruct Hp as (es1 & -> & Hc1 & Hd1 & Hi1 & Hok1).
    apply IH in H.
    destruct H as (pre & q & rest' & es2 & -> & Hq' & Hpre & -> & Hi2 & Hc2
                   & Hd2 & Hok2).
    exists (line :: pre), q, rest', (completed (Input ">> ") :: es1 ++ es2).
    cbn [app forallb List.length]. rewrite Hq, Hpre.
    repeat split; try assumption.
    + flatten_trace. reflexivity.
    + change (completed (Input ">> ") :: es1 ++ es2)
        with ([completed (Input ">> ")] ++ es1 ++ es2).
      rewrite !count_app, Hi1, Hi2. reflexivity.
    + change (completed (Input ">> ") :: es1 ++ es2)
        with ([completed (Input ">> ")] ++ es1 ++ es2).
      rewrite !count_app, Hc1, Hc2. reflexivity.
    + change (completed (Input ">> ") :: es1 ++ es2)
        with ([completed (Input ">> ")] ++ es1 ++ es2).
      rewrite !count_app, Hd1, Hd2. reflexivity.
    + cbn [is_completed raised completed]. rewrite forallb_app, Hok1, Hok2.
      reflexivity.
Qed.

(** X10.  [main] returns normally only through the quit command.  The lines
    then split into lines that are not quit commands, the first quit command
    and an unread rest, and the run read one line and took one complete
    photo session (one connect, one disconnect) per line before the quit
    command, read the quit command itself, and no call raised. *)
Theorem main_returns_after_quit (env : Env) (stdin : list string) (t' : Trace) :
  main env stdin [] = (Return tt, t') ->
  exists (pre : list string) (q : string) (rest : list string),
    stdin = pre ++ q :: rest /\
    quits q = true /\
    forallb (fun line => negb (quits line)) pre = true /\
    count is_input t' = S (List.length pre) /\
    count is_connect t' = List.length pre /\
    count is_disconnect t' = List.length pre /\
    forallb is_completed t' = true.
Proof.
  intros H.
  change (main env stdin [])
    with (main_loop env stdin
            [completed
               (Print "Press ENTER to take a photo, or type 'q' to quit.")])
    in H.
  apply main_loop_returns in H.
  destruct H as (pre & q & rest & es & -> & Hq & Hpre & -> & Hi & Hc & Hd & Hok).
  exists pre, q, rest. rewrite !count_app, Hi, Hc, Hd, forallb_app, Hok.
  now repeat split.
Qed.

Lemma main_returns_after_quit_witness :
  exists pre : list string,
    count is_connect (snd (main ideal [""; "x"; "q"; "y"] [])) =
      List.length pre /\
    forallb (fun line => negb (quits line)) pre = true.
Proof.
  destruct (main_returns_after_quit ideal [""; "x"; "q"; "y"]
              (snd (main ideal [""; "x"; "q"; "y"] [])) eq_refl)
    as (pre & q & rest & _ & _ & Hpre & _ & Hc & _).
  exists pre. split; assumption.
Defined.

(** A session that raises [e] ends in one of three ways after calls that
    all completed: with the call that raised [e]; with the call that raised
    [e] and the completed disconnect; or with a call that raised and the
    disconnect that raised [e]. *)
Lemma take_photo_raise_shape (env : Env) (t : Trace) (e : exn) :
  fst (take_photo env t) = Raise e ->
  exists es pre tail : Trace,
    snd (take_photo env t) = t ++ es /\
    es = pre ++ tail /\
    forallb is_completed pre = true /\
    ((exists c : Call, is_input c = false /\ tail = [failed c e]) \/
     (exists c : Call, tail = [failed c e; completed Disconnect]) \/
     (exists (c : Call) (e' : exn),
         tail = [failed c e'; failed Disconnect e])).
Proof.
  split_paths env; cbn [fst snd]; intros H; try discriminate;
    injection H as ->; flatten_trace;
    match goal with
    | |- exists es pre tail : Trace, t ++ ?l = _ /\ _ =>
        first
          [ match l with
            | context [failed ?c ?e' :: failed Disconnect e :: nil] =>
                exists l, (removelast (removelast l)),
                  [failed c e'; failed Disconnect e];
                split; [reflexivity |]; split; [reflexivity |];
                split; [reflexivity |];
                right; right; exists c, e'; reflexivity
            end
          | match l with
            | context [failed ?c e :: completed Disconnect :: nil] =>
                exists l, (removelast (removelast l)),
                  [failed c e; completed Disconnect];
                split; [reflexivity |]; split; [reflexivity |];
                split; [reflexivity |];
                right; left; exists c; reflexivity
            end
          | match l with
            | context [failed ?c e :: nil] =>
                exists l, (removelast l), [failed c e];
                split; [reflexivity |]; split; [reflexivity |];
                split; [reflexivity |];
                left; exists c; split; reflexivity
            end ]
    end.
Qed.

Lemma main_loop_raises (env : Env) (stdin : list string) :
  forall (t : Trace) (e : exn),
    fst (main_loop env stdin t) = Raise e ->
    exists es pre tail : Trace,
      snd (main_loop env stdin t) = t ++ es /\
      es = pre ++ tail /\
      forallb is_completed pre = true /\
      ((exists c : Call,
           tail = [failed c e] /\
           (is_input c = true ->
            e = EOFError /\
            forallb (fun line => negb (quits line)) stdin = true /\
            count is_connect pre = List.length stdin /\
            count is_disconnect pre = List.length stdin)) \/
       (exists c : Call, tail = [failed c e; completed Disconnect]) \/
       (exists (c : Call) (e' : exn),
           tail = [failed c e'; failed Disconnect e])).
Proof.
  induction stdin as [|line rest IH]; intros t e H.
  - cbn in H. injection H as <-.
    exists [failed (Input ">> ") EOFError], [],
      [failed (Input ">> ") EOFError].
    repeat split. left. exists (Input ">> "). now repeat split.
  - rewrite main_loop_cons in H |- *. destruct (quits line) eqn:Hq;
      [discriminate H |].
    destruct (take_photo env (t ++ [completed (Input ">> ")]))
      as [[[]|e'] t1] eqn:Hp.
    + apply take_photo_return_counts in Hp.
      destruct Hp as (es1 & -> & Hc1 & Hd1 & _ & Hok1).
      destruct (IH _ _ H) as (es2 & pre2 & tail & Hes & -> & Hok2 & Hshape).
      exists (completed (Input ">> ") :: es1 ++ pre2 ++ tail),
        (completed (Input ">> ") :: es1 ++ pre2), tail.
      split; [rewrite Hes; flatten_trace; reflexivity |].
      split; [cbn [app]; now rewrite <- app_assoc |].
      split; [cbn [forallb is_completed raised completed];
              now rewrite forallb_app, Hok1, Hok2 |].
      destruct Hshape as [(c & Htail & Heof) | Hshape]; [left | right; exact Hshape].
      exists c. split; [exact Htail |].
      intros Hc. destruct (Heof Hc) as (-> & Hnq & Hn & Hm).
      cbn [forallb List.length]. rewrite Hq, Hnq.
      change (completed (Input ">> ") :: es1 ++ pre2)
        with ([completed (Input ">> ")] ++ es1 ++ pre2).
      rewrite !count_app, Hc1, Hd1, Hn, Hm. now repeat split.
    + cbn [fst] in H. injection H as ->.
      assert (Hr : fst (take_photo env (t ++ [completed (Input ">> ")]))
                   = Raise e) by now rewrite Hp.
      destruct (take_photo_raise_shape _ _ _ Hr)
        as (es1 & pre1 & tail & Hes & -> & Hok1 & Hshape).
      rewrite Hp in Hes. cbn [snd] in Hes |- *. subst t1.
      exists (completed (Input ">> ") :: pre1 ++ tail),
        (completed (Input ">> ") :: pre1), tail.
      split; [flatten_trace; reflexivity |].
      split; [reflexivity |].
      split; [exact Hok1 |].
      destruct Hshape as [(c & Hc & Htail) | Hshape]; [left | right; exact Hshape].
      exists c. split; [exact Htail |].
      intros Hc'. rewrite Hc in Hc'. discriminate Hc'.
Qed.

(** X11.  [main] catches nothing: when it raises [e], the run ends right
    there.  After calls that all completed, its trace ends with the call
    that raised [e]; or with that call and the completed disconnect of the
    open session; or with a call of the session that raised and the
    disconnect that raised [e] in its place.  No session is retried and no
    further line is read.  When the call that raised is the console read,
    the input ran out: the exception is [EOFError], no line was a quit
    command, and one session per line was opened and closed before. *)
Theorem main_aborts_at_first_failure (env : Env) (stdin : list string)
    (e : exn) :
  fst (main env stdin []) = Raise e ->
  exists pre tail : Trace,
    snd (main env stdin []) = pre ++ tail /\
    forallb is_completed pre = true /\
    ((exists c : Call,
         tail = [failed c e] /\
         (is_input c = true ->
          e = EOFError /\
          forallb (fun line => negb (quits line)) stdin = true /\
          count is_connect pre = List.length stdin /\
          count is_disconnect pre = List.length stdin)) \/
     (exists c : Call, tail = [failed c e; completed Disconnect]) \/
     (exists (c : Call) (e' : exn),
         tail = [failed c e'; failed Disconnect e])).
Proof.
  set (banner :=
         completed (Print "Press ENTER to take a photo, or type 'q' to quit.")).
  change (main env stdin []) with (main_loop env stdin [banner]).
  intros H.
  destruct (main_loop_raises env stdin _ _ H)
    as (es & pre & tail & Hes & -> & Hok & Hshape).
  exists (banner :: pre), tail. rewrite Hes.
  split; [reflexivity |].
  split; [exact Hok |].
  destruct Hshape as [(c & Htail & Heof) | Hshape]; [left | right; exact Hshape].
  exists c. split; [exact Htail |].
  intros Hc. destruct (Heof Hc) as (-> & Hnq & Hn & Hm).
  change (banner :: pre) with ([banner] ++ pre).
  rewrite !count_app, Hn, Hm. now repeat split.
Qed.

Lemma main_aborts_at_first_failure_witness :
  exists pre tail : Trace,
    snd (main handshake_and_disconnect_fail [""; ""] []) = pre ++ tail /\
    forallb is_completed pre = true.
Proof.
  destruct (main_aborts_at_first_failure
              handshake_and_disconnect_fail [""; ""] TimeoutError eq_refl)
    as (pre & tail & Hsplit & Hok & _).
  exists pre, tail. split; assumption.
Defined.
